(** * Subtract Square: a shallow embedding of [game_state.py]

    The development follows the Python source function by function.

    - Python integers are unbounded: they are [Z].
    - [current_value ** 0.5] leaves the integers: the operand is converted
      to an IEEE 754 binary64 value, raised to the power one half, and
      [int(...)] truncates the result.  Binary64 is taken from the standard
      library's specification of floating-point arithmetic ([SpecFloat],
      with [prec = 53] and [emax = 1024]); the C library's [pow(x, 0.5)] is
      taken to be the correctly rounded square root.
    - A raised exception is a value of the type [result]; the recursion of
      [rough_outcome] is driven by a fuel counter, and enough fuel is shown
      to exist for every state.
    - Objects live in a store; [make_move] allocates.

    Limits of the interpreter rather than of the program are left out: the
    recursion limit, the optional limit on the number of digits of an
    integer converted to a string, and memory. *)

From Stdlib Require Import ZArith List Sorted Permutation Bool Lia String Ascii.
From Stdlib Require Import Floats.SpecFloat.
From Stdlib Require Import DecimalString DecimalZ DecimalPos.
Import ListNotations.
Open Scope Z_scope.

(** ** Exceptions *)

Inductive exn : Type :=
| TypeError
| OverflowError
| ValueError.

Inductive result (A : Type) : Type :=
| Ok (a : A)
| Raise (e : exn).
Arguments Ok {A} a.
Arguments Raise {A} e.

Definition bind {A B : Type} (r : result A) (k : A -> result B) : result B :=
  match r with
  | Ok a => k a
  | Raise e => Raise e
  end.

Notation "x <- c ;; k" := (bind c (fun x => k))
  (at level 61, c at next level, right associativity).

(** ** The numeric tower used by [current_value ** 0.5] *)

Module PyFloat.

(** binary64 *)
Definition prec : Z := 53.
Definition emax : Z := 1024.

(** A Python number produced by [**]: a float, or a complex number (of
    which only the type matters to [int]). *)
Inductive pynum : Type :=
| VFloat (x : spec_float)
| VComplex.

(** [float(n)] for an integer [n]: round to nearest, ties to even;
    "int too large to convert to float" when the result is not finite. *)
Definition float_of_int (n : Z) : result spec_float :=
  match binary_normalize prec emax n 0 false with
  | S754_infinity _ => Raise OverflowError
  | x => Ok x
  end.

(** [x ** 0.5] on a float, after CPython's [float_pow]: a zero base gives
    [0.0]; a negative base with a fractional exponent gives a complex
    number; otherwise the C library's [pow(x, 0.5)], taken to be the
    correctly rounded square root. *)
Definition pow_half (x : spec_float) : pynum :=
  match x with
  | S754_nan => VFloat S754_nan
  | S754_infinity _ => VFloat (S754_infinity false)
  | S754_zero _ => VFloat (S754_zero false)
  | S754_finite true _ _ => VComplex
  | S754_finite false _ _ => VFloat (SFsqrt prec emax x)
  end.

(** [int(x)]: truncation toward zero for a float; a complex argument is
    a [TypeError]. *)
Definition trunc (x : spec_float) : result Z :=
  match x with
  | S754_nan => Raise ValueError
  | S754_infinity _ => Raise OverflowError
  | S754_zero _ => Ok 0
  | S754_finite s m e =>
      Ok (cond_Zopp s (if 0 <=? e then Z.shiftl (Zpos m) e
                       else Z.shiftr (Zpos m) (- e)))
  end.

Definition int_of (v : pynum) : result Z :=
  match v with
  | VFloat x => trunc x
  | VComplex => Raise TypeError
  end.

(** [int(n ** 0.5)] for an integer [n]. *)
Definition int_sqrt (n : Z) : result Z :=
  x <- float_of_int n ;;
  int_of (pow_half x).

End PyFloat.

(** ** [range] and the list comprehension *)

(** [range(a, b)]: the integers [a, a+1, ..., b-1]; empty when [b <= a]. *)
Definition py_range (a b : Z) : list Z :=
  map (fun i => a + Z.of_nat i) (seq 0 (Z.to_nat (b - a))).

(** ** class GameState *)

Definition WIN : Z := 1.
Definition LOSE : Z := -1.
Definition DRAW : Z := 0.

(** ** class SubtractSquareGameState *)

Record SubtractSquareGameState : Type := mkState {
  p1_turn : bool;
  current_value : Z
}.

Definition get_current_player_name (s : SubtractSquareGameState) : string :=
  if p1_turn s then "p1"%string else "p2"%string.

(** [[i * i for i in range(1, int(self.current_value ** 0.5) + 1)]] *)
Definition get_possible_moves (s : SubtractSquareGameState) : result (list Z) :=
  k <- PyFloat.int_sqrt (current_value s) ;;
  Ok (map (fun i => i * i) (py_range 1 (k + 1))).

(** [move in self.get_possible_moves()] *)
Definition is_valid_move (s : SubtractSquareGameState) (move : Z) : result bool :=
  ms <- get_possible_moves s ;;
  Ok (existsb (Z.eqb move) ms).

Definition make_move (s : SubtractSquareGameState) (move : Z)
  : SubtractSquareGameState :=
  let new_value := current_value s - move in
  mkState (negb (p1_turn s)) new_value.

(** Formatting inside an f-string: [format(True, '')] is ['True'], and an
    integer is written in decimal with a leading minus sign when negative. *)
Definition py_str_bool (b : bool) : string :=
  if b then "True"%string else "False"%string.

Definition py_str_int (n : Z) : string :=
  NilZero.string_of_int (Z.to_int n).

Definition __str__ (s : SubtractSquareGameState) : string :=
  ("Current value: " ++ py_str_int (current_value s)
   ++ ", Player turn: " ++ get_current_player_name s)%string.

Definition __repr__ (s : SubtractSquareGameState) : string :=
  ("SubtractSquareGameState(p1_turn=" ++ py_str_bool (p1_turn s)
   ++ ", current_value=" ++ py_str_int (current_value s) ++ ")")%string.

(** *** [rough_outcome]

    The [for] loop of the method, over the moves that remain to be tried;
    [rec] is the recursive call.  An exception raised by a successor is
    propagated; [None] means that the fuel of the recursion ran out. *)
Fixpoint scan_moves (rec : SubtractSquareGameState -> option (result Z))
    (s : SubtractSquareGameState) (moves : list Z) : option (result Z) :=
  match moves with
  | [] => Some (Ok DRAW)
  | move :: rest =>
      let next_state := make_move s move in
      match rec next_state with
      | None => None
      | Some (Raise e) => Some (Raise e)
      | Some (Ok r) =>
          if r =? LOSE then Some (Ok WIN) else scan_moves rec s rest
      end
  end.

(** The method calls [get_possible_moves] twice: once for the emptiness
    test and once for the loop. *)
Fixpoint rough_outcome_fuel (fuel : nat) (s : SubtractSquareGameState)
  : option (result Z) :=
  match fuel with
  | O => None
  | S fuel' =>
      match get_possible_moves s with
      | Raise e => Some (Raise e)
      | Ok [] => Some (Ok LOSE)
      | Ok (_ :: _) =>
          match get_possible_moves s with
          | Raise e => Some (Raise e)
          | Ok moves => scan_moves (rough_outcome_fuel fuel') s moves
          end
      end
  end.

(** One unit of fuel per unit of [current_value], and one for the call
    itself: the depth the recursion can reach. *)
Definition rough_outcome (s : SubtractSquareGameState) : option (result Z) :=
  rough_outcome_fuel (S (Z.to_nat (current_value s))) s.

(** ** Objects

    A state is an object in a store; a reference is its index.  The
    constructor call at the end of [make_move] allocates, and nothing in the
    class assigns to a field after [__init__]. *)
Definition ref : Type := nat.
Definition store : Type := list SubtractSquareGameState.

Definition deref (h : store) (r : ref) : option SubtractSquareGameState :=
  nth_error h r.

Definition new (h : store) (o : SubtractSquareGameState) : store * ref :=
  ((h ++ [o])%list, List.length h).

Definition make_move_obj (h : store) (self : ref) (move : Z)
  : option (store * ref) :=
  match deref h self with
  | None => None
  | Some s => Some (new h (make_move s move))
  end.

(** ** Sequences of moves *)

(** The driver's loop body, repeated: each move replaces the current state
    by the one [make_move] returns. *)
Definition play (s : SubtractSquareGameState) (moves : list Z)
  : SubtractSquareGameState :=
  fold_left make_move moves s.

(** Every move of the sequence passes [is_valid_move] in the state where it
    is applied. *)
Fixpoint valid_play (s : SubtractSquareGameState) (moves : list Z) : Prop :=
  match moves with
  | [] => True
  | m :: rest => is_valid_move s m = Ok true /\ valid_play (make_move s m) rest
  end.

(** ** The specification's reading of the game *)

(** The legal moves as the specification words them: [ms] lists, in
    ascending order, exactly the squares [k * k] with [k >= 1] and
    [k * k <= v]. *)
Definition squares_upto (v : Z) (ms : list Z) : Prop :=
  StronglySorted Z.lt ms /\
  forall m, In m ms <-> exists k, 1 <= k /\ m = k * k /\ k * k <= v.

(** The outcome estimate as the specification words it: LOSE without a
    move, WIN when some move leads to a successor whose own estimate is
    LOSE, DRAW otherwise.  [out m] is the estimate of the successor reached
    by [m]. *)
Definition spec_rough_outcome (moves : list Z) (out : Z -> Z) : Z :=
  match moves with
  | [] => LOSE
  | _ :: _ => if existsb (fun m => out m =? LOSE) moves then WIN else DRAW
  end.

(** ** The console driver (the [__main__] block)

    The lines typed at the prompt are taken to be integer literals, so the
    input is a list of integers; the lines written (the prompts of [input]
    included) are collected in order. *)

(** [str] of a list of integers, as an f-string writes it: ['[1, 4, 9]']. *)
Fixpoint py_join (sep : string) (l : list string) : string :=
  match l with
  | [] => ""%string
  | [x] => x
  | x :: rest => (x ++ sep ++ py_join sep rest)%string
  end.

Definition py_str_list (l : list Z) : string :=
  ("[" ++ py_join ", " (map py_str_int l) ++ "]")%string.

(** How a run of the driver ends: the loop was left and the winner
    announced; [input] found no more line (an [EOFError]); or a method of
    the state raised. *)
Inductive session : Type :=
| Announced (final : SubtractSquareGameState) (out : list string)
| EndOfInput (current : SubtractSquareGameState) (out : list string)
| Crashed (e : exn) (out : list string).

(** The [if] after the loop. *)
Definition announce (s : SubtractSquareGameState) : string :=
  if String.eqb (get_current_player_name s) "p1"
  then "Player 2 wins!"%string else "Player 1 wins!"%string.

(** The [while] loop and the announcement that follows it. *)
Fixpoint game_loop (current_game_state : SubtractSquareGameState)
    (inputs : list Z) (out : list string) : session :=
  match get_possible_moves current_game_state with
  | Raise e => Crashed e out
  | Ok [] =>
      Announced current_game_state (out ++ [announce current_game_state])%list
  | Ok (_ :: _) =>
      match get_possible_moves current_game_state with
      | Raise e => Crashed e out
      | Ok moves =>
          let out :=
            (out ++ [("Possible moves: " ++ py_str_list moves)%string])%list in
          let out :=
            (out ++ [(get_current_player_name current_game_state
                      ++ "'s turn. Choose your move: ")%string])%list in
          match inputs with
          | [] => EndOfInput current_game_state out
          | move :: rest =>
              match is_valid_move current_game_state move with
              | Raise e => Crashed e out
              | Ok true =>
                  let next := make_move current_game_state move in
                  game_loop next rest (out ++ [__str__ next])%list
              | Ok false =>
                  game_loop current_game_state rest
                            (out ++ ["Invalid move. Try again."%string])%list
              end
          end
      end
  end.

Definition main (inputs : list Z) : session :=
  let current_game_state := mkState true 10 in
  game_loop current_game_state inputs
            ["Initial game state:"%string; __str__ current_game_state].


Definition output (r : session) : list string :=
  match r with
  | Announced _ out | EndOfInput _ out | Crashed _ out => out
  end.

(** * Facts about the binary64 operations

    [fexp64 e] is the exponent of the last mantissa bit of a binary64
    number of magnitude [2^e]. *)

Local Notation "'fexp64'" := (SpecFloat.fexp 53 1024).

Lemma fexp_eq x : fexp64 x = Z.max (x - 53) (-1074).
Proof. reflexivity. Qed.

Lemma digits2_size p : digits2_pos p = Pos.size p.
Proof. induction p; simpl; congruence. Qed.

Lemma Zdigits2_log2 p : Zdigits2 (Zpos p) = Z.log2 (Zpos p) + 1.
Proof.
  destruct p as [p|p|]; simpl; rewrite ?digits2_size; lia.
Qed.

Lemma Zdigits2_nonneg m : 0 <= Zdigits2 m.
Proof. destruct m; simpl; lia. Qed.

Lemma Zdigits2_bounds m :
  0 < m -> 2 ^ (Zdigits2 m - 1) <= m < 2 ^ Zdigits2 m.
Proof.
  intros Hm. destruct m as [|p|p]; try lia.
  rewrite Zdigits2_log2.
  replace (Z.log2 (Zpos p) + 1 - 1) with (Z.log2 (Zpos p)) by lia.
  replace (Z.log2 (Zpos p) + 1) with (Z.succ (Z.log2 (Zpos p))) by lia.
  apply Z.log2_spec. lia.
Qed.

Lemma Zdigits2_le m k : 0 <= m -> 0 <= k -> m < 2 ^ k -> Zdigits2 m <= k.
Proof.
  intros Hm Hk Hlt. destruct m as [|p|p]; try lia.
  - simpl. lia.
  - rewrite Zdigits2_log2.
    assert (Z.log2 (Zpos p) < k) by (apply Z.log2_lt_pow2; lia). lia.
Qed.

Lemma Zdigits2_ge m k : 0 <= k -> 2 ^ k <= m -> k < Zdigits2 m.
Proof.
  intros Hk Hle.
  assert (0 < 2 ^ k) by (apply Z.pow_pos_nonneg; lia).
  destruct m as [|p|p]; try lia.
  rewrite Zdigits2_log2.
  assert (k <= Z.log2 (Zpos p)) by (apply Z.log2_le_pow2; lia). lia.
Qed.

Lemma iter_pos_iter {A} (f : A -> A) p x : iter_pos f p x = Pos.iter f x p.
Proof.
  revert x. induction p as [p IH|p IH|]; intros x; simpl.
  - rewrite !IH. rewrite <- !Pos.iter_swap. reflexivity.
  - rewrite !IH. reflexivity.
  - reflexivity.
Qed.

Lemma shr_1_m r : 0 <= shr_m r -> shr_m (shr_1 r) = shr_m r / 2.
Proof.
  destruct r as [m r s]. simpl. intros Hm.
  destruct m as [|[p|p|]|p]; cbn [shr_m shr_1]; try lia; try reflexivity.
  - apply Z.div_unique with (r := 1); lia.
  - apply Z.div_unique with (r := 0); lia.
Qed.

Lemma shr_iter_m p r :
  0 <= shr_m r -> shr_m (iter_pos shr_1 p r) = shr_m r / 2 ^ Zpos p.
Proof.
  intros Hm. rewrite iter_pos_iter.
  induction p as [|p IH] using Pos.peano_ind.
  - simpl Pos.iter. rewrite shr_1_m by assumption. reflexivity.
  - rewrite Pos.iter_succ, shr_1_m.
    + rewrite IH, Pos2Z.inj_succ, Z.pow_succ_r by lia.
      rewrite Z.div_div by lia. f_equal. lia.
    + rewrite IH. apply Z.div_pos; [assumption | apply Z.pow_pos_nonneg; lia].
Qed.

Lemma shr_record_of_loc_m m l : shr_m (shr_record_of_loc m l) = m.
Proof. destruct l as [|[]]; reflexivity. Qed.

Lemma shr_fexp_spec m e l :
  0 <= m ->
  snd (shr_fexp 53 1024 m e l) = Z.max e (fexp64 (Zdigits2 m + e)) /\
  shr_m (fst (shr_fexp 53 1024 m e l))
  = m / 2 ^ (Z.max e (fexp64 (Zdigits2 m + e)) - e).
Proof.
  intros Hm. unfold shr_fexp, shr.
  destruct (fexp64 (Zdigits2 m + e) - e) as [|n|n] eqn:En; simpl.
  - replace (Z.max e (fexp64 (Zdigits2 m + e))) with e by lia.
    rewrite Z.sub_diag, Z.pow_0_r, Z.div_1_r, shr_record_of_loc_m. split; reflexivity.
  - replace (Z.max e (fexp64 (Zdigits2 m + e))) with (e + Zpos n) by lia.
    split; [reflexivity|].
    rewrite shr_iter_m by (rewrite shr_record_of_loc_m; assumption).
    rewrite shr_record_of_loc_m. f_equal. f_equal. lia.
  - replace (Z.max e (fexp64 (Zdigits2 m + e))) with e by lia.
    rewrite Z.sub_diag, Z.pow_0_r, Z.div_1_r, shr_record_of_loc_m. split; reflexivity.
Qed.

Lemma round_nearest_even_bounds m l :
  m <= round_nearest_even m l <= m + 1.
Proof.
  destruct l as [|[]]; simpl; try lia. destruct (Z.even m); lia.
Qed.

Lemma pow2_pos n : 0 <= n -> 0 < 2 ^ n.
Proof. intros. apply Z.pow_pos_nonneg; lia. Qed.

Lemma Zdigits2_mono a b : 0 <= a <= b -> Zdigits2 a <= Zdigits2 b.
Proof.
  intros [Ha Hab].
  destruct (Z.eq_dec b 0) as [->|Hb].
  - replace a with 0 by lia. lia.
  - apply Zdigits2_le; [lia | apply Zdigits2_nonneg |].
    pose proof (Zdigits2_bounds b). lia.
Qed.

Lemma Zdigits2_succ m : 0 <= m -> Zdigits2 (m + 1) <= Zdigits2 m + 1.
Proof.
  intros Hm. pose proof (Zdigits2_nonneg m).
  apply Zdigits2_le; try lia.
  rewrite Z.pow_add_r by lia.
  destruct (Z.eq_dec m 0) as [->|Hn]; [simpl; lia|].
  pose proof (Zdigits2_bounds m). lia.
Qed.

Lemma Zdigits2_div_pow2_le m n :
  0 <= m -> 0 <= n -> Zdigits2 (m / 2 ^ n) <= Z.max 0 (Zdigits2 m - n).
Proof.
  intros Hm Hn. pose proof (pow2_pos n Hn) as Hp.
  pose proof (Zdigits2_nonneg m) as Hd.
  assert (0 <= m / 2 ^ n) by (apply Z.div_pos; lia).
  destruct (Z.eq_dec m 0) as [->|Hm0].
  { rewrite Z.div_0_l by lia. simpl. lia. }
  pose proof (Zdigits2_bounds m ltac:(lia)) as [_ Hub].
  destruct (Z_lt_le_dec (Zdigits2 m) n) as [Hlt|Hge].
  - assert (2 ^ Zdigits2 m <= 2 ^ n) by (apply Z.pow_le_mono_r; lia).
    rewrite Z.div_small by lia. simpl. lia.
  - apply Zdigits2_le; try lia.
    replace (Z.max 0 (Zdigits2 m - n)) with (Zdigits2 m - n) by lia.
    apply Z.div_lt_upper_bound; try lia.
    rewrite <- Z.pow_add_r by lia.
    replace (n + (Zdigits2 m - n)) with (Zdigits2 m) by lia. assumption.
Qed.

Lemma Zdigits2_div_pow2_ge m n :
  0 < m -> 0 <= n < Zdigits2 m ->
  1 <= m / 2 ^ n /\ Zdigits2 m - n <= Zdigits2 (m / 2 ^ n).
Proof.
  intros Hm Hn. pose proof (pow2_pos n ltac:(lia)) as Hp.
  pose proof (Zdigits2_bounds m Hm) as [Hlb _].
  assert (Hq : 2 ^ (Zdigits2 m - 1 - n) <= m / 2 ^ n).
  { apply Z.div_le_lower_bound; try lia.
    rewrite <- Z.pow_add_r by lia.
    replace (n + (Zdigits2 m - 1 - n)) with (Zdigits2 m - 1) by lia. assumption. }
  pose proof (pow2_pos (Zdigits2 m - 1 - n) ltac:(lia)).
  split; [lia|].
  pose proof (Zdigits2_ge (m / 2 ^ n) (Zdigits2 m - 1 - n) ltac:(lia) Hq). lia.
Qed.

Lemma loc_of_shr_record_of_loc m l :
  loc_of_shr_record (shr_record_of_loc m l) = l.
Proof. destruct l as [|[]]; reflexivity. Qed.

Lemma shr_fexp_id m e l :
  fexp64 (Zdigits2 m + e) <= e ->
  shr_fexp 53 1024 m e l = (shr_record_of_loc m l, e).
Proof.
  intros H. unfold shr_fexp, shr.
  destruct (fexp64 (Zdigits2 m + e) - e) eqn:E; try reflexivity. lia.
Qed.

(** The two rounding steps of [binary_round_aux], spelled out. *)
Lemma binary_round_aux_spec sx m e l :
  0 <= m ->
  let e1 := Z.max e (fexp64 (Zdigits2 m + e)) in
  let m1 := round_nearest_even (m / 2 ^ (e1 - e))
              (loc_of_shr_record (fst (shr_fexp 53 1024 m e l))) in
  let e2 := Z.max e1 (fexp64 (Zdigits2 m1 + e1)) in
  binary_round_aux 53 1024 sx m e l =
  match m1 / 2 ^ (e2 - e1) with
  | 0 => S754_zero sx
  | Zpos p => if e2 <=? 971 then S754_finite sx p e2 else S754_infinity sx
  | Zneg _ => S754_nan
  end.
Proof.
  intros Hm e1 m1 e2. unfold binary_round_aux.
  destruct (shr_fexp_spec m e l Hm) as [He1 Hm1].
  destruct (shr_fexp 53 1024 m e l) as [mrs' e'] eqn:E1.
  cbn [fst snd] in *. fold e1 in He1, Hm1. subst e'.
  rewrite Hm1. fold m1.
  assert (Hm1pos : 0 <= m1).
  { unfold m1. pose proof (round_nearest_even_bounds (m / 2 ^ (e1 - e))
      (loc_of_shr_record mrs')).
    assert (0 <= m / 2 ^ (e1 - e)) by (apply Z.div_pos; [lia|apply pow2_pos; lia]).
    lia. }
  destruct (shr_fexp_spec m1 e1 loc_Exact Hm1pos) as [He2 Hm2].
  destruct (shr_fexp 53 1024 m1 e1 loc_Exact) as [mrs'' e''] eqn:E2.
  cbn [fst snd] in *. fold e2 in He2, Hm2. subst e''.
  rewrite Hm2. reflexivity.
Qed.

(** A non-negative mantissa whose magnitude stays below [2^1023] rounds to
    a finite number or to zero. *)
Lemma binary_round_aux_finite sx m e l :
  0 <= m -> Zdigits2 m + e <= 1023 -> e <= 971 ->
  binary_round_aux 53 1024 sx m e l = S754_zero sx \/
  exists p e2, binary_round_aux 53 1024 sx m e l = S754_finite sx p e2 /\
               Zdigits2 (Zpos p) <= 53 /\ e <= e2 <= 971.
Proof.
  intros Hm Hd He. rewrite binary_round_aux_spec by assumption.
  set (e1 := Z.max e (fexp64 (Zdigits2 m + e))).
  set (m1 := round_nearest_even _ _).
  set (e2 := Z.max e1 (fexp64 (Zdigits2 m1 + e1))).
  pose proof (fexp_eq (Zdigits2 m + e)) as F1.
  pose proof (fexp_eq (Zdigits2 m1 + e1)) as F2.
  pose proof (round_nearest_even_bounds (m / 2 ^ (e1 - e))
      (loc_of_shr_record (fst (shr_fexp 53 1024 m e l)))) as Hr. fold m1 in Hr.
  assert (0 <= m / 2 ^ (e1 - e)) by (apply Z.div_pos; [lia|apply pow2_pos; lia]).
  pose proof (Zdigits2_div_pow2_le m (e1 - e) Hm ltac:(lia)) as D1.
  pose proof (Zdigits2_mono m1 (m / 2 ^ (e1 - e) + 1) ltac:(lia)) as D2.
  pose proof (Zdigits2_succ (m / 2 ^ (e1 - e)) ltac:(lia)) as D3.
  pose proof (Zdigits2_div_pow2_le m1 (e2 - e1) ltac:(lia) ltac:(lia)) as D4.
  assert (0 <= m1 / 2 ^ (e2 - e1)) by (apply Z.div_pos; [lia|apply pow2_pos; lia]).
  destruct (m1 / 2 ^ (e2 - e1)) as [|p|p] eqn:E; [left; reflexivity| |lia].
  right. exists p, e2.
  assert (e2 <= 971) by lia.
  destruct (Z.leb_spec e2 971); [|lia].
  split; [reflexivity|]. split; lia.
Qed.

(** A positive mantissa above the subnormal range never rounds to zero. *)
Lemma binary_round_aux_nonzero sx m e l :
  0 < m -> -1074 < Zdigits2 m + e ->
  binary_round_aux 53 1024 sx m e l = S754_infinity sx \/
  exists p e2, binary_round_aux 53 1024 sx m e l = S754_finite sx p e2 /\
               Zdigits2 (Zpos p) <= 53 /\ e <= e2 <= 971.
Proof.
  intros Hm Hd. rewrite binary_round_aux_spec by lia.
  set (e1 := Z.max e (fexp64 (Zdigits2 m + e))).
  set (m1 := round_nearest_even _ _).
  set (e2 := Z.max e1 (fexp64 (Zdigits2 m1 + e1))).
  pose proof (fexp_eq (Zdigits2 m + e)) as F1.
  pose proof (fexp_eq (Zdigits2 m1 + e1)) as F2.
  pose proof (round_nearest_even_bounds (m / 2 ^ (e1 - e))
      (loc_of_shr_record (fst (shr_fexp 53 1024 m e l)))) as Hr. fold m1 in Hr.
  pose proof (Zdigits2_ge m 0 ltac:(lia) ltac:(simpl; lia)) as P0.
  pose proof (Zdigits2_div_pow2_ge m (e1 - e) Hm ltac:(lia)) as [G1 G2].
  pose proof (Zdigits2_mono (m / 2 ^ (e1 - e)) m1 ltac:(lia)) as D2.
  pose proof (Zdigits2_ge m1 0 ltac:(lia) ltac:(simpl; lia)) as P1.
  pose proof (Zdigits2_div_pow2_ge m1 (e2 - e1) ltac:(lia) ltac:(lia)) as [G3 G4].
  pose proof (Zdigits2_div_pow2_le m1 (e2 - e1) ltac:(lia) ltac:(lia)) as D4.
  destruct (m1 / 2 ^ (e2 - e1)) as [|p|p] eqn:E; try lia.
  destruct (Z.leb_spec e2 971); [right|left; reflexivity].
  exists p, e2. split; [reflexivity|]. split; lia.
Qed.

Lemma iter_xO_pow2 p d : Zpos (Pos.iter xO p d) = Zpos p * 2 ^ Zpos d.
Proof.
  induction d as [|d IH] using Pos.peano_ind.
  - simpl. lia.
  - rewrite Pos.iter_succ, Pos2Z.inj_xO, IH, Pos2Z.inj_succ, Z.pow_succ_r by lia.
    lia.
Qed.

Lemma shl_align_spec p e e' :
  snd (shl_align p e e') = Z.min e e' /\
  Zpos (fst (shl_align p e e')) = Zpos p * 2 ^ (e - Z.min e e').
Proof.
  unfold shl_align. destruct (e' - e) as [|d|d] eqn:E; cbn [fst snd].
  - replace (Z.min e e') with e by lia. rewrite Z.sub_diag. simpl. lia.
  - replace (Z.min e e') with e by lia. rewrite Z.sub_diag. simpl. lia.
  - replace (Z.min e e') with e' by lia. split; [reflexivity|].
    rewrite iter_xO_pow2. f_equal. f_equal. lia.
Qed.

Lemma Zdigits2_mul_pow2 m s :
  0 < m -> 0 <= s -> Zdigits2 (m * 2 ^ s) = Zdigits2 m + s.
Proof.
  intros Hm Hs. pose proof (pow2_pos s Hs) as Hp.
  pose proof (Zdigits2_bounds m Hm) as [Hl Hu].
  pose proof (Zdigits2_ge m 0 ltac:(lia) ltac:(simpl; lia)) as P0.
  apply Z.le_antisymm.
  - apply Zdigits2_le; try nia.
    rewrite Z.pow_add_r by lia. nia.
  - assert (2 ^ (Zdigits2 m - 1 + s) <= m * 2 ^ s).
    { rewrite Z.pow_add_r by lia. nia. }
    pose proof (Zdigits2_ge (m * 2 ^ s) (Zdigits2 m - 1 + s) ltac:(lia) H). lia.
Qed.

(** *** Conversion of an integer *)

Lemma binary_round_int_cases sx p :
  binary_round 53 1024 sx p 0 = S754_infinity sx \/
  exists m e, binary_round 53 1024 sx p 0 = S754_finite sx m e /\
              Zdigits2 (Zpos m) <= 53 /\ e <= 971.
Proof.
  unfold binary_round.
  destruct (shl_align_spec p 0 (fexp64 (Zpos (digits2_pos p) + 0))) as [Hez Hmz].
  destruct (shl_align p 0 (fexp64 (Zpos (digits2_pos p) + 0))) as [mz ez].
  cbn [fst snd] in *.
  pose proof (fexp_eq (Zpos (digits2_pos p) + 0)) as F.
  pose proof (Zdigits2_ge (Zpos mz) 0 ltac:(lia) ltac:(simpl; lia)) as P0.
  destruct (binary_round_aux_nonzero sx (Zpos mz) ez loc_Exact)
    as [Hi|(m & e2 & Hf & Hd & He)]; try lia.
  - left; assumption.
  - right. exists m, e2. repeat split; try assumption; lia.
Qed.

Lemma float_of_int_nonzero n :
  n <> 0 ->
  PyFloat.float_of_int n = Raise OverflowError \/
  exists m e, PyFloat.float_of_int n = Ok (S754_finite (n <? 0) m e) /\
              Zdigits2 (Zpos m) <= 53 /\ e <= 971.
Proof.
  intros Hn. unfold PyFloat.float_of_int, PyFloat.prec, PyFloat.emax.
  destruct n as [|p|p]; [congruence| |]; cbn [binary_normalize].
  - destruct (binary_round_int_cases false p) as [->|(m & e & -> & Hd & He)];
      [left; reflexivity|].
    right. exists m, e. auto.
  - destruct (binary_round_int_cases true p) as [->|(m & e & -> & Hd & He)];
      [left; reflexivity|].
    right. exists m, e. auto.
Qed.

(** *** Square root *)

Lemma SFsqrt_core_binary_spec m e :
  0 < m ->
  let e' := Z.min (fexp64 (Z.div2 (Zdigits2 m + e + 1))) (Z.div2 e) in
  let m' := m * 2 ^ (e - 2 * e') in
  let q := Z.sqrt m' in
  SFsqrt_core_binary 53 1024 m e =
  (q, e', if m' - q * q =? 0 then loc_Exact
          else loc_Inexact (if m' - q * q <=? q then Lt else Gt)).
Proof.
  intros Hm e' m' q. unfold SFsqrt_core_binary. fold e'.
  assert (Hs : 0 <= e - 2 * e').
  { unfold e'. generalize (fexp64 (Z.div2 (Zdigits2 m + e + 1))).
    intros x. clear. rewrite Z.div2_div. pose proof (Z.div_mod e 2 ltac:(lia)).
    pose proof (Z.mod_pos_bound e 2 ltac:(lia)). lia. }
  assert (Hm' : match e - 2 * e' with
                | Zpos _ => Z.shiftl m (e - 2 * e') | 0 => m | Zneg _ => 0 end = m').
  { unfold m'. destruct (e - 2 * e') as [|s|s] eqn:E; try lia.
    rewrite Z.shiftl_mul_pow2 by lia. reflexivity. }
  rewrite Hm'.
  pose proof (Z.sqrtrem_spec m') as Hspec.
  pose proof (Z.sqrtrem_sqrt m') as Hfst.
  destruct (Z.sqrtrem m') as [s r]. cbn [fst] in Hfst. subst s. fold q.
  assert (0 <= m') by (unfold m'; pose proof (pow2_pos _ Hs); nia).
  specialize (Hspec ltac:(lia)). cbv zeta in Hspec. destruct Hspec as [Heq _].
  replace (m' - q * q) with r by lia. reflexivity.
Qed.

Lemma trunc_sqrt_finite m e :
  Zdigits2 (Zpos m) <= 53 -> e <= 971 ->
  exists r, PyFloat.trunc (SFsqrt 53 1024 (S754_finite false m e)) = Ok r /\ 0 <= r.
Proof.
  intros Hd He. cbn [SFsqrt].
  rewrite SFsqrt_core_binary_spec by lia.
  set (e' := Z.min (fexp64 (Z.div2 (Zdigits2 (Zpos m) + e + 1))) (Z.div2 e)).
  set (m' := Zpos m * 2 ^ (e - 2 * e')).
  set (q := Z.sqrt m').
  set (l := if m' - q * q =? 0 then _ else _).
  assert (Hs : 0 <= e - 2 * e' /\ Zdigits2 (Zpos m) + e - e' <= 1023 /\ e' <= 971).
  { unfold e'. rewrite !Z.div2_div, fexp_eq.
    pose proof (Z.div_mod e 2 ltac:(lia)). pose proof (Z.mod_pos_bound e 2 ltac:(lia)).
    pose proof (Z.div_mod (Zdigits2 (Zpos m) + e + 1) 2 ltac:(lia)).
    pose proof (Z.mod_pos_bound (Zdigits2 (Zpos m) + e + 1) 2 ltac:(lia)).
    lia. }
  destruct Hs as (Hs & Hb & He').
  assert (Hm'pos : 0 < m') by (unfold m'; pose proof (pow2_pos _ Hs); nia).
  assert (Hq : 0 <= q <= m').
  { unfold q. split; [apply Z.sqrt_nonneg | apply Z.sqrt_le_lin; lia]. }
  assert (Hdq : Zdigits2 q + e' <= 1023).
  { pose proof (Zdigits2_mono q m' Hq).
    unfold m' in H. rewrite Zdigits2_mul_pow2 in H by lia. lia. }
  destruct (binary_round_aux_finite false q e' l) as [->|(p & e2 & -> & _ & _)]; try lia.
  - exists 0. split; [reflexivity | lia].
  - eexists. split; [reflexivity|]. cbn [cond_Zopp].
    destruct (0 <=? e2); [apply Z.shiftl_nonneg | apply Z.shiftr_nonneg]; lia.
Qed.

(** *** [int(n ** 0.5)]: where it returns *)

Lemma int_sqrt_negative n :
  n < 0 ->
  PyFloat.int_sqrt n = Raise TypeError \/ PyFloat.int_sqrt n = Raise OverflowError.
Proof.
  intros Hn. unfold PyFloat.int_sqrt.
  destruct (float_of_int_nonzero n ltac:(lia)) as [->|(m & e & -> & _)].
  - right. reflexivity.
  - replace (n <? 0) with true by (symmetry; apply Z.ltb_lt; assumption).
    left. reflexivity.
Qed.

Lemma int_sqrt_nonneg_cases n :
  0 <= n ->
  (PyFloat.float_of_int n = Raise OverflowError /\
   PyFloat.int_sqrt n = Raise OverflowError) \/
  (exists x k, PyFloat.float_of_int n = Ok x /\ PyFloat.int_sqrt n = Ok k /\ 0 <= k).
Proof.
  intros Hn. unfold PyFloat.int_sqrt.
  destruct (Z.eq_dec n 0) as [->|Hn0].
  { right. exists (S754_zero false), 0. repeat split; lia. }
  destruct (float_of_int_nonzero n Hn0) as [->|(m & e & -> & Hd & He)].
  - left. split; reflexivity.
  - right. replace (n <? 0) with false by (symmetry; apply Z.ltb_ge; assumption).
    destruct (trunc_sqrt_finite m e Hd He) as (r & Hr & Hr0).
    exists (S754_finite false m e), r. cbn [bind PyFloat.pow_half PyFloat.int_of].
    repeat split; assumption.
Qed.

Lemma binary_round_aux_same_exp sx m e l :
  0 < m -> fexp64 (Zdigits2 m + e) <= e ->
  fexp64 (Zdigits2 (round_nearest_even m l) + e) <= e -> e <= 971 ->
  binary_round_aux 53 1024 sx m e l
  = S754_finite sx (Z.to_pos (round_nearest_even m l)) e.
Proof.
  intros Hm H1 H2 He. rewrite binary_round_aux_spec by lia.
  rewrite shr_fexp_id by assumption. cbn [fst].
  rewrite loc_of_shr_record_of_loc.
  replace (Z.max e (fexp64 (Zdigits2 m + e))) with e by lia.
  rewrite Z.sub_diag, Z.pow_0_r, Z.div_1_r.
  replace (Z.max e (fexp64 (Zdigits2 (round_nearest_even m l) + e))) with e by lia.
  rewrite Z.sub_diag, Z.pow_0_r, Z.div_1_r.
  pose proof (round_nearest_even_bounds m l) as Hr.
  destruct (round_nearest_even m l) as [|p|p]; try lia.
  destruct (Z.leb_spec e 971); [reflexivity | lia].
Qed.

Lemma Zdigits2_eq m k : 0 < k -> 2 ^ (k - 1) <= m < 2 ^ k -> Zdigits2 m = k.
Proof.
  intros Hk [Hl Hu]. pose proof (pow2_pos (k - 1) ltac:(lia)).
  pose proof (Zdigits2_le m k ltac:(lia) ltac:(lia) Hu).
  pose proof (Zdigits2_ge m (k - 1) ltac:(lia) Hl). lia.
Qed.

(** Rounding an integer of at most 53 bits is exact. *)
Lemma binary_round_short sx p :
  let d := Zdigits2 (Zpos p) in
  d <= 53 ->
  binary_round 53 1024 sx p 0
  = S754_finite sx (Z.to_pos (Zpos p * 2 ^ (53 - d))) (d - 53).
Proof.
  intros d Hd. unfold binary_round.
  assert (Hd1 : 1 <= d).
  { pose proof (Zdigits2_ge (Zpos p) 0 ltac:(lia) ltac:(simpl; lia)). unfold d. lia. }
  change (Zpos (digits2_pos p)) with d.
  destruct (shl_align_spec p 0 (fexp64 (d + 0))) as [Hez Hmz].
  destruct (shl_align p 0 (fexp64 (d + 0))) as [mz ez]. cbn [fst snd] in *.
  pose proof (fexp_eq (d + 0)) as F.
  replace (0 - Z.min 0 (fexp64 (d + 0))) with (53 - d) in Hmz by lia.
  assert (Hez' : ez = d - 53) by lia. clear Hez. subst ez.
  pose proof (Zdigits2_mul_pow2 (Zpos p) (53 - d) ltac:(lia) ltac:(lia)) as Hdm.
  fold d in Hdm. rewrite <- Hmz in Hdm.
  pose proof (fexp_eq (Zdigits2 (Zpos mz) + (d - 53))) as F2.
  rewrite binary_round_aux_same_exp; cbn [round_nearest_even]; try lia.
  rewrite <- Hmz. reflexivity.
Qed.

(** An integer of at most 53 bits converts exactly. *)
Lemma float_of_int_exact p :
  let d := Zdigits2 (Zpos p) in
  d <= 53 ->
  PyFloat.float_of_int (Zpos p)
  = Ok (S754_finite false (Z.to_pos (Zpos p * 2 ^ (53 - d))) (d - 53)).
Proof.
  intros d Hd. unfold PyFloat.float_of_int, PyFloat.prec, PyFloat.emax.
  cbn [binary_normalize]. rewrite binary_round_short by assumption. reflexivity.
Qed.

Lemma sqrt_pow2_scaled n t :
  0 <= n -> 0 <= t ->
  let k := Z.sqrt n in
  let q := Z.sqrt (n * 2 ^ (2 * t)) in
  k * 2 ^ t <= q < (k + 1) * 2 ^ t.
Proof.
  intros Hn Ht k q. pose proof (pow2_pos t Ht) as HT.
  assert (HTT : 2 ^ (2 * t) = 2 ^ t * 2 ^ t).
  { rewrite <- Z.pow_add_r by lia. f_equal. lia. }
  pose proof (Z.sqrt_spec n Hn) as [Hk1 Hk2]. fold k in Hk1, Hk2.
  pose proof (Z.sqrt_nonneg n) as Hk0. fold k in Hk0.
  unfold q. rewrite HTT. split.
  - apply Z.sqrt_le_square; nia.
  - apply Z.sqrt_lt_square; nia.
Qed.

(** Below [2^52] the float square root, truncated, is the integer square root. *)
Lemma int_sqrt_exact n :
  0 <= n < 2 ^ 52 -> PyFloat.int_sqrt n = Ok (Z.sqrt n).
Proof.
  intros [Hn0 Hn]. destruct n as [|p|p]; [reflexivity| |lia].
  set (d := Zdigits2 (Zpos p)).
  assert (Hd : 1 <= d <= 52).
  { pose proof (Zdigits2_ge (Zpos p) 0 ltac:(lia) ltac:(simpl; lia)).
    pose proof (Zdigits2_le (Zpos p) 52 ltac:(lia) ltac:(lia) Hn). unfold d. lia. }
  pose proof (Zdigits2_bounds (Zpos p) ltac:(lia)) as [Hpl Hpu]. fold d in Hpl, Hpu.
  unfold PyFloat.int_sqrt. rewrite float_of_int_exact by (fold d; lia). fold d.
  cbn [bind PyFloat.pow_half PyFloat.int_of].
  set (mz := Z.to_pos (Zpos p * 2 ^ (53 - d))).
  assert (Hmz : Zpos mz = Zpos p * 2 ^ (53 - d)).
  { unfold mz. rewrite Z2Pos.id; [reflexivity|]. pose proof (pow2_pos (53 - d)). nia. }
  assert (Hdmz : Zdigits2 (Zpos mz) = 53).
  { rewrite Hmz, Zdigits2_mul_pow2 by lia. fold d. lia. }
  unfold PyFloat.prec, PyFloat.emax. cbn [SFsqrt].
  rewrite SFsqrt_core_binary_spec by lia. rewrite Hdmz.
  (* the exponent of the root *)
  set (t := 53 - (d + 1) / 2).
  assert (He' : Z.min (fexp64 (Z.div2 (53 + (d - 53) + 1))) (Z.div2 (d - 53)) = - t).
  { rewrite !Z.div2_div, fexp_eq. unfold t.
    replace (53 + (d - 53) + 1) with (d + 1) by lia.
    pose proof (Z.div_mod (d + 1) 2 ltac:(lia)).
    pose proof (Z.mod_pos_bound (d + 1) 2 ltac:(lia)).
    pose proof (Z.div_mod (d - 53) 2 ltac:(lia)).
    pose proof (Z.mod_pos_bound (d - 53) 2 ltac:(lia)). lia. }
  rewrite He'.
  assert (Ht : 27 <= t <= 52).
  { unfold t. pose proof (Z.div_mod (d + 1) 2 ltac:(lia)).
    pose proof (Z.mod_pos_bound (d + 1) 2 ltac:(lia)). lia. }
  assert (Hm' : Zpos mz * 2 ^ (d - 53 - 2 * - t) = Zpos p * 2 ^ (2 * t)).
  { rewrite Hmz, <- Z.mul_assoc, <- Z.pow_add_r by lia. f_equal. f_equal. lia. }
  rewrite Hm'.
  set (m' := Zpos p * 2 ^ (2 * t)).
  set (q := Z.sqrt m').
  set (k := Z.sqrt (Zpos p)).
  pose proof (sqrt_pow2_scaled (Zpos p) t ltac:(lia) ltac:(lia)) as Hq.
  cbv zeta in Hq. fold m' in Hq. fold q k in Hq.
  pose proof (pow2_pos t ltac:(lia)) as HT.
  assert (HTT : 2 ^ (2 * t) = 2 ^ t * 2 ^ t).
  { rewrite <- Z.pow_add_r by lia. f_equal. lia. }
  pose proof (Z.sqrt_spec (Zpos p) ltac:(lia)) as [Hk1 Hk2]. fold k in Hk1, Hk2.
  pose proof (Z.sqrt_nonneg (Zpos p)) as Hk0. fold k in Hk0.
  pose proof (Z.sqrt_spec m' ltac:(unfold m'; nia)) as [Hq1 Hq2]. fold q in Hq1, Hq2.
  (* k + 1 <= 2^26 < 2^t *)
  assert (Hk26 : k + 1 <= 2 ^ 26).
  { assert (k < 2 ^ 26); [|lia]. unfold k. apply Z.sqrt_lt_square; lia. }
  assert (HT27 : 2 ^ 27 <= 2 ^ t) by (apply Z.pow_le_mono_r; lia).
  (* the root has 53 bits *)
  assert (Hq53 : 2 ^ 52 <= q < 2 ^ 53).
  { assert (H104 : 2 ^ 104 <= m' < 2 ^ 106).
    { unfold m'.
      assert (Hc : 2 * t = 105 - d \/ 2 * t = 106 - d).
      { unfold t. pose proof (Z.div_mod (d + 1) 2 ltac:(lia)).
        pose proof (Z.mod_pos_bound (d + 1) 2 ltac:(lia)). lia. }
      pose proof (pow2_pos (2 * t) ltac:(lia)).
      destruct Hc as [Hc|Hc]; rewrite Hc in *.
      - assert (2 ^ 104 = 2 ^ (d - 1) * 2 ^ (105 - d))
          by (rewrite <- Z.pow_add_r by lia; f_equal; lia).
        assert (2 ^ 105 = 2 ^ d * 2 ^ (105 - d))
          by (rewrite <- Z.pow_add_r by lia; f_equal; lia).
        assert (2 ^ 105 < 2 ^ 106) by (apply Z.pow_lt_mono_r; lia). nia.
      - assert (2 ^ 105 = 2 ^ (d - 1) * 2 ^ (106 - d))
          by (rewrite <- Z.pow_add_r by lia; f_equal; lia).
        assert (2 ^ 106 = 2 ^ d * 2 ^ (106 - d))
          by (rewrite <- Z.pow_add_r by lia; f_equal; lia).
        assert (2 ^ 104 < 2 ^ 105) by (apply Z.pow_lt_mono_r; lia). nia. }
    unfold q. split.
    - apply Z.sqrt_le_square; [lia | lia | ]. change (2 ^ 52 * 2 ^ 52) with (2 ^ 104). lia.
    - apply Z.sqrt_lt_square; [lia | lia | ]. change (2 ^ 53 * 2 ^ 53) with (2 ^ 106). lia. }
  set (l := if m' - q * q =? 0 then _ else _).
  (* rounding never reaches the next integer *)
  assert (Hr : q <= round_nearest_even q l < (k + 1) * 2 ^ t).
  { pose proof (round_nearest_even_bounds q l) as Hb. split; [lia|].
    unfold l. destruct (Z.eqb_spec (m' - q * q) 0) as [E0|E0]; cbn [round_nearest_even]; [lia|].
    destruct (Z.leb_spec (m' - q * q) q) as [Ele|Egt]; cbn [round_nearest_even]; [lia|].
    (* m' > q^2 + q, and m' <= ((k+1)^2 - 1) * T^2 *)
    assert (Hup : m' <= ((k + 1) * (k + 1) - 1) * (2 ^ t * 2 ^ t)).
    { unfold m'. rewrite HTT. apply Z.mul_le_mono_nonneg_r; nia. }
    destruct (Z_lt_le_dec (q + 1) ((k + 1) * 2 ^ t)) as [?|Hge]; [assumption|exfalso].
    assert (Heq : q + 1 = (k + 1) * 2 ^ t) by lia.
    assert (q = (k + 1) * 2 ^ t - 1) by lia.
    nia. }
  assert (Hd53 : Zdigits2 q = 53) by (apply Zdigits2_eq; simpl; lia).
  assert (Hd53' : Zdigits2 (round_nearest_even q l) = 53).
  { apply Zdigits2_eq; [lia|]. change (53 - 1) with 52.
    assert ((k + 1) * 2 ^ t <= 2 ^ 53); [|lia].
    (* (k+1)*T <= 2^53 because q < 2^53 forces k*T < 2^53 with k+1 <= 2^(53-t) *)
    assert (Hk53 : k + 1 <= 2 ^ (53 - t)).
    { assert (k < 2 ^ (53 - t)); [|lia].
      unfold k. apply Z.sqrt_lt_square; [lia| pose proof (pow2_pos (53 - t)); lia |].
      rewrite <- Z.pow_add_r by lia.
      assert (d <= 53 - t + (53 - t)).
      { unfold t. pose proof (Z.div_mod (d + 1) 2 ltac:(lia)).
        pose proof (Z.mod_pos_bound (d + 1) 2 ltac:(lia)). lia. }
      assert (2 ^ d <= 2 ^ (53 - t + (53 - t))) by (apply Z.pow_le_mono_r; lia). lia. }
    replace (2 ^ 53) with (2 ^ (53 - t) * 2 ^ t)
      by (rewrite <- Z.pow_add_r by lia; f_equal; lia).
    apply Z.mul_le_mono_nonneg_r; lia. }
  rewrite binary_round_aux_same_exp; rewrite ?Hd53, ?Hd53', ?fexp_eq; try lia.
  cbn [PyFloat.trunc cond_Zopp].
  destruct (Z.leb_spec 0 (- t)); [lia|].
  rewrite Z2Pos.id by lia.
  rewrite Z.opp_involutive, Z.shiftr_div_pow2 by lia.
  f_equal. symmetry. apply Z.div_unique with (r := round_nearest_even q l - k * 2 ^ t); lia.
Qed.

(** *** The round and sticky bits after a right shift *)

Lemma shr_1_bits r :
  0 <= shr_m r ->
  shr_r (shr_1 r) = Z.odd (shr_m r) /\ shr_s (shr_1 r) = shr_r r || shr_s r.
Proof.
  destruct r as [m r s]. cbn [shr_m shr_r shr_s]. intros Hm.
  destruct m as [|[p|p|]|p]; try lia; split; reflexivity.
Qed.

Lemma shr_iter_bits p m :
  0 <= m ->
  let r := iter_pos shr_1 p (Build_shr_record m false false) in
  shr_r r = Z.odd (m / 2 ^ (Zpos p - 1)) /\
  shr_s r = negb (m mod 2 ^ (Zpos p - 1) =? 0).
Proof.
  intros Hm. cbv zeta. rewrite iter_pos_iter.
  induction p as [|p IH] using Pos.peano_ind.
  - cbn [Pos.iter]. destruct (shr_1_bits (Build_shr_record m false false) Hm) as [-> ->].
    cbn [shr_m shr_r shr_s]. change (1 - 1) with 0.
    rewrite Z.pow_0_r, Z.div_1_r, Z.mod_1_r. split; reflexivity.
  - rewrite Pos.iter_succ.
    set (r := Pos.iter shr_1 (Build_shr_record m false false) p) in *.
    assert (Hrm : shr_m r = m / 2 ^ Zpos p).
    { unfold r. rewrite <- iter_pos_iter. apply shr_iter_m. assumption. }
    assert (Hpos : 0 <= shr_m r).
    { rewrite Hrm. apply Z.div_pos; [assumption | apply pow2_pos; lia]. }
    destruct (shr_1_bits r Hpos) as [-> ->]. destruct IH as [-> ->].
    rewrite Hrm, Pos2Z.inj_succ.
    replace (Z.succ (Zpos p) - 1) with (Zpos p) by lia.
    split; [reflexivity|].
    (* m mod 2^p = 2^(p-1) * bit + m mod 2^(p-1) *)
    pose proof (pow2_pos (Zpos p - 1) ltac:(lia)) as HP.
    assert (E2 : 2 ^ Zpos p = 2 ^ (Zpos p - 1) * 2).
    { replace (Zpos p) with (Z.succ (Zpos p - 1)) at 1 by lia.
      rewrite Z.pow_succ_r by lia. lia. }
    set (P := 2 ^ (Zpos p - 1)) in *.
    pose proof (Z.div_mod m P ltac:(lia)) as D1.
    pose proof (Z.mod_pos_bound m P ltac:(lia)) as B1.
    assert (Hmod : m mod 2 ^ Zpos p = P * ((m / P) mod 2) + m mod P).
    { rewrite E2. rewrite Z.rem_mul_r by lia. lia. }
    rewrite Hmod.
    rewrite (Zmod_odd (m / P)).
    destruct (Z.odd (m / P));
      destruct (Z.eqb_spec (m mod P) 0) as [Er|Er];
      match goal with
      | |- context [?x =? 0] => destruct (Z.eqb_spec x 0)
      end; cbn [orb negb]; try reflexivity; exfalso; nia.
Qed.

(** *** Where the conversion of an integer overflows *)

(** Rounding an integer of more than 53 bits. *)
Lemma binary_round_long sx p :
  let d := Zdigits2 (Zpos p) in
  54 <= d ->
  let q := Zpos p / 2 ^ (d - 53) in
  let up := Z.odd (Zpos p / 2 ^ (d - 54)) &&
            (Z.odd q || negb (Zpos p mod 2 ^ (d - 54) =? 0)) in
  2 ^ 52 <= q < 2 ^ 53 /\
  binary_round 53 1024 sx p 0 =
  if up then
    if q + 1 =? 2 ^ 53
    then if d - 52 <=? 971 then S754_finite sx (Z.to_pos (2 ^ 52)) (d - 52)
         else S754_infinity sx
    else if d - 53 <=? 971 then S754_finite sx (Z.to_pos (q + 1)) (d - 53)
         else S754_infinity sx
  else if d - 53 <=? 971 then S754_finite sx (Z.to_pos q) (d - 53)
       else S754_infinity sx.
Proof.
  intros d Hd q up.
  pose proof (Zdigits2_bounds (Zpos p) ltac:(lia)) as [Hpl Hpu]. fold d in Hpl, Hpu.
  pose proof (pow2_pos (d - 53) ltac:(lia)) as HP.
  assert (Hq : 2 ^ 52 <= q < 2 ^ 53).
  { unfold q. split.
    - apply Z.div_le_lower_bound; [lia|]. rewrite <- Z.pow_add_r by lia.
      replace (d - 53 + 52) with (d - 1) by lia. assumption.
    - apply Z.div_lt_upper_bound; [lia|]. rewrite <- Z.pow_add_r by lia.
      replace (d - 53 + 53) with d by lia. assumption. }
  split; [exact Hq|].
  unfold binary_round. change (Zpos (digits2_pos p)) with d.
  destruct (shl_align_spec p 0 (fexp64 (d + 0))) as [Hez Hmz].
  destruct (shl_align p 0 (fexp64 (d + 0))) as [mz ez]. cbn [fst snd] in *.
  pose proof (fexp_eq (d + 0)) as F.
  assert (Hez' : ez = 0) by lia. clear Hez. subst ez.
  replace (0 - Z.min 0 (fexp64 (d + 0))) with 0 in Hmz by lia.
  rewrite Z.pow_0_r, Z.mul_1_r in Hmz. injection Hmz as ->.
  rewrite binary_round_aux_spec by lia.
  fold d. rewrite F.
  replace (Z.max 0 (Z.max (d + 0 - 53) (-1074))) with (d - 53) by lia.
  replace (d - 53 - 0) with (d - 53) by lia. fold q.
  (* the location given by the shifted-out bits *)
  assert (Hloc : round_nearest_even q
            (loc_of_shr_record (fst (shr_fexp 53 1024 (Zpos p) 0 loc_Exact)))
          = if up then q + 1 else q).
  { unfold shr_fexp, shr. cbn [Zdigits2]. change (Zpos (digits2_pos p)) with d.
    destruct (fexp64 (d + 0) - 0) as [|n|n] eqn:En; try lia.
    cbn [fst shr_record_of_loc].
    destruct (shr_iter_bits n (Zpos p) ltac:(lia)) as [Hr Hs].
    replace (Zpos n - 1) with (d - 54) in Hr, Hs by lia.
    destruct (iter_pos shr_1 n (Build_shr_record (Zpos p) false false)) as [m' r s].
    cbn [shr_r shr_s] in Hr, Hs. unfold up. rewrite <- Hr, <- Hs.
    rewrite <- Z.negb_even.
    destruct r, s; cbn [loc_of_shr_record round_nearest_even];
      destruct (Z.even q); reflexivity. }
  rewrite Hloc.
  destruct up.
  - destruct (Z.eqb_spec (q + 1) (2 ^ 53)) as [E|E].
    + rewrite E.
      replace (Zdigits2 (2 ^ 53)) with 54 by reflexivity.
      rewrite fexp_eq.
      replace (Z.max (d - 53) (Z.max (54 + (d - 53) - 53) (-1074))) with (d - 52) by lia.
      replace (d - 52 - (d - 53)) with 1 by lia.
      change (2 ^ 53 / 2 ^ 1) with (2 ^ 52). reflexivity.
    + assert (Hd1 : Zdigits2 (q + 1) = 53) by (apply Zdigits2_eq; simpl; lia).
      rewrite Hd1, fexp_eq.
      replace (Z.max (d - 53) (Z.max (53 + (d - 53) - 53) (-1074))) with (d - 53) by lia.
      rewrite Z.sub_diag, Z.pow_0_r, Z.div_1_r.
      destruct (q + 1) as [|m|m] eqn:Eq1; try lia. reflexivity.
  - assert (Hd1 : Zdigits2 q = 53) by (apply Zdigits2_eq; simpl; lia).
    rewrite Hd1, fexp_eq.
    replace (Z.max (d - 53) (Z.max (53 + (d - 53) - 53) (-1074))) with (d - 53) by lia.
    rewrite Z.sub_diag, Z.pow_0_r, Z.div_1_r.
    destruct q as [|m|m] eqn:Eq1; try lia. reflexivity.
Qed.

(** The integers that do not fit: from [2^1024 - 2^970] on, the halfway
    point between the largest binary64 number and [2^1024]. *)
Lemma binary_round_overflow sx p :
  binary_round 53 1024 sx p 0 = S754_infinity sx <->
  2 ^ 1024 - 2 ^ 970 <= Zpos p.
Proof.
  set (d := Zdigits2 (Zpos p)).
  pose proof (Zdigits2_bounds (Zpos p) ltac:(lia)) as [Hpl Hpu]. fold d in Hpl, Hpu.
  assert (Hd1 : 1 <= d).
  { pose proof (Zdigits2_ge (Zpos p) 0 ltac:(lia) ltac:(simpl; lia)). unfold d. lia. }
  assert (E1024 : 2 ^ 1024 = 18014398509481984 * 2 ^ 970) by reflexivity.
  assert (E1023 : 2 ^ 1023 = 9007199254740992 * 2 ^ 970) by reflexivity.
  assert (E971 : 2 ^ 971 = 2 * 2 ^ 970) by reflexivity.
  assert (E53 : 2 ^ 53 = 9007199254740992) by reflexivity.
  pose proof (pow2_pos 970 ltac:(lia)) as HA.
  destruct (Z_le_gt_dec d 53) as [Hs|Hl].
  - rewrite (binary_round_short sx p Hs). fold d.
    assert (2 ^ d <= 2 ^ 1023) by (apply Z.pow_le_mono_r; lia).
    split; [discriminate | lia].
  - destruct (binary_round_long sx p ltac:(fold d; lia)) as [Hq ->]. fold d in Hq |- *.
    set (q := Zpos p / 2 ^ (d - 53)) in *.
    set (up := Z.odd (Zpos p / 2 ^ (d - 54)) && _).
    destruct (Z_le_gt_dec d 1023) as [H23|H23].
    { (* at most 1023 bits: finite, and below the threshold *)
      assert (2 ^ d <= 2 ^ 1023) by (apply Z.pow_le_mono_r; lia).
      destruct (Z.leb_spec (d - 52) 971), (Z.leb_spec (d - 53) 971); try lia.
      split; [|lia]. destruct up; [destruct (q + 1 =? 2 ^ 53)|]; discriminate. }
    destruct (Z_le_gt_dec 1025 d) as [H25|H25].
    { (* at least 1025 bits: overflow, and above the threshold *)
      assert (2 ^ 1024 <= 2 ^ (d - 1)) by (apply Z.pow_le_mono_r; lia).
      destruct (Z.leb_spec (d - 52) 971), (Z.leb_spec (d - 53) 971); try lia.
      split; [lia|]. intros _. destruct up; [destruct (q + 1 =? 2 ^ 53)|]; reflexivity. }
    (* exactly 1024 bits *)
    assert (Hd : d = 1024) by lia.
    subst up q. rewrite Hd in *.
    change (1024 - 52 <=? 971) with false. change (1024 - 53 <=? 971) with true.
    change (1024 - 53) with 971 in *. change (1024 - 54) with 970.
    change (1024 - 1) with 1023 in *.
    set (A := 2 ^ 970) in *.
    pose proof (Z.div_mod (Zpos p) A ltac:(lia)) as D1.
    pose proof (Z.mod_pos_bound (Zpos p) A ltac:(lia)) as B1.
    pose proof (Z.div_mod (Zpos p) (2 ^ 971) ltac:(lia)) as D2.
    pose proof (Z.mod_pos_bound (Zpos p) (2 ^ 971) ltac:(lia)) as B2.
    set (h := Zpos p / A) in *. set (q := Zpos p / 2 ^ 971) in *.
    assert (Hhq : h = 2 * q + (if Z.odd h then 1 else 0)).
    { assert (Hq2 : q = h / 2).
      { unfold q, h. rewrite E971, Z.mul_comm, <- Z.div_div by lia. reflexivity. }
      rewrite Hq2. pose proof (Z.div_mod h 2 ltac:(lia)) as D3.
      rewrite (Zmod_odd h) in D3. exact D3. }
    split.
    + intros Hinf.
      destruct (Z.odd h) eqn:Oh; cbn [andb] in Hinf; [|discriminate].
      destruct (Z.odd q || negb (Zpos p mod A =? 0)); [|discriminate].
      destruct (Z.eqb_spec (q + 1) (2 ^ 53)); [|discriminate]. nia.
    + intros Hge.
      assert (Hh : h = 18014398509481983) by nia.
      assert (Hq' : q = 9007199254740991).
      { rewrite Hh in Hhq. change (Z.odd 18014398509481983) with true in Hhq. lia. }
      rewrite Hh, Hq'. reflexivity.
Qed.

Lemma float_of_int_overflow n :
  PyFloat.float_of_int n = Raise OverflowError <->
  2 ^ 1024 - 2 ^ 970 <= Z.abs n.
Proof.
  unfold PyFloat.float_of_int, PyFloat.prec, PyFloat.emax.
  assert (T : 0 < 2 ^ 1024 - 2 ^ 970) by reflexivity.
  destruct n as [|p|p]; cbn [binary_normalize Z.abs].
  - split; [discriminate | lia].
  - rewrite <- (binary_round_overflow false p).
    destruct (binary_round_int_cases false p) as [->|(m & e & -> & _)];
      split; intros H; try discriminate H; reflexivity.
  - rewrite <- (binary_round_overflow true p).
    destruct (binary_round_int_cases true p) as [->|(m & e & -> & _)];
      split; intros H; try discriminate H; reflexivity.
Qed.

(** [int(n ** 0.5)] returns exactly on the non-negative integers that fit
    a float. *)
Lemma int_sqrt_domain n :
  (exists k, PyFloat.int_sqrt n = Ok k) <-> 0 <= n < 2 ^ 1024 - 2 ^ 970.
Proof.
  pose proof (float_of_int_overflow n) as Hov.
  split.
  - intros [k Hk].
    destruct (Z_lt_le_dec n 0) as [Hneg|Hge].
    + destruct (int_sqrt_negative n Hneg); congruence.
    + split; [assumption|].
      destruct (int_sqrt_nonneg_cases n Hge) as [[Ho _]|_].
      * unfold PyFloat.int_sqrt in Hk. rewrite Ho in Hk. discriminate Hk.
      * destruct (Z_lt_le_dec n (2 ^ 1024 - 2 ^ 970)) as [?|Hbig]; [assumption|].
        exfalso. assert (Ho : PyFloat.float_of_int n = Raise OverflowError)
          by (apply Hov; lia).
        unfold PyFloat.int_sqrt in Hk. rewrite Ho in Hk. discriminate Hk.
  - intros [Hge Hlt].
    destruct (int_sqrt_nonneg_cases n Hge) as [[Ho _]|(x & k & _ & Hk & _)].
    + apply Hov in Ho. lia.
    + exists k. exact Hk.
Qed.

(** On a negative integer: [OverflowError] when it does not fit a float,
    [TypeError] from [int] of a complex number otherwise. *)
Lemma int_sqrt_negative_exn n :
  n < 0 ->
  PyFloat.int_sqrt n
  = Raise (if n <=? - (2 ^ 1024 - 2 ^ 970) then OverflowError else TypeError).
Proof.
  intros Hn. pose proof (float_of_int_overflow n) as Hov.
  unfold PyFloat.int_sqrt.
  destruct (Z.leb_spec n (- (2 ^ 1024 - 2 ^ 970))) as [Hbig|Hsmall].
  - assert (Ho : PyFloat.float_of_int n = Raise OverflowError) by (apply Hov; lia).
    rewrite Ho. reflexivity.
  - destruct (float_of_int_nonzero n ltac:(lia)) as [Ho|(m & e & -> & _)].
    + apply Hov in Ho. lia.
    + replace (n <? 0) with true by (symmetry; apply Z.ltb_lt; assumption).
      reflexivity.
Qed.

(** * The moves *)

Lemma py_range_In a b i : In i (py_range a b) <-> a <= i < b.
Proof.
  unfold py_range. rewrite in_map_iff. split.
  - intros (n & <- & Hn). apply in_seq in Hn. lia.
  - intros Hi. exists (Z.to_nat (i - a)). split; [lia|]. apply in_seq. lia.
Qed.

Lemma seq_shift_sorted a n len :
  StronglySorted Z.lt (map (fun i => a + Z.of_nat i) (seq n len)).
Proof.
  revert n. induction len as [|len IH]; intros n; cbn [seq map]; constructor.
  - apply IH.
  - apply Forall_forall. intros x Hx. apply in_map_iff in Hx.
    destruct Hx as (j & <- & Hj). apply in_seq in Hj. lia.
Qed.

Lemma py_range_sorted a b : StronglySorted Z.lt (py_range a b).
Proof. apply seq_shift_sorted. Qed.

Lemma map_square_sorted l :
  StronglySorted Z.lt l -> (forall x, In x l -> 1 <= x) ->
  StronglySorted Z.lt (map (fun i => i * i) l).
Proof.
  induction 1 as [|x l Hs IH Hall]; intros Hpos; cbn [map]; constructor.
  - apply IH. intros y Hy. apply Hpos. right; assumption.
  - rewrite Forall_forall in *. intros y Hy. apply in_map_iff in Hy.
    destruct Hy as (z & <- & Hz). specialize (Hall z Hz).
    assert (1 <= x) by (apply Hpos; left; reflexivity). nia.
Qed.

Lemma squares_In k m :
  In m (map (fun i => i * i) (py_range 1 (k + 1))) <->
  exists i, 1 <= i <= k /\ m = i * i.
Proof.
  rewrite in_map_iff. split.
  - intros (i & <- & Hi). apply py_range_In in Hi. exists i. split; [lia|reflexivity].
  - intros (i & Hi & ->). exists i. split; [reflexivity|]. apply py_range_In. lia.
Qed.

Lemma squares_sorted k :
  StronglySorted Z.lt (map (fun i => i * i) (py_range 1 (k + 1))).
Proof.
  apply map_square_sorted; [apply py_range_sorted|].
  intros x Hx. apply py_range_In in Hx. lia.
Qed.

Lemma get_possible_moves_inv s ms :
  get_possible_moves s = Ok ms ->
  exists k, PyFloat.int_sqrt (current_value s) = Ok k /\
            ms = map (fun i => i * i) (py_range 1 (k + 1)).
Proof.
  unfold get_possible_moves. destruct (PyFloat.int_sqrt (current_value s)) as [k|e];
    cbn [bind]; [|discriminate].
  intros [= <-]. exists k. split; reflexivity.
Qed.

Lemma get_possible_moves_negative s :
  current_value s < 0 ->
  get_possible_moves s = Raise TypeError \/
  get_possible_moves s = Raise OverflowError.
Proof.
  intros H. unfold get_possible_moves.
  destruct (int_sqrt_negative _ H) as [->| ->]; [left|right]; reflexivity.
Qed.

Lemma get_possible_moves_zero s :
  current_value s = 0 -> get_possible_moves s = Ok [].
Proof. intros H. unfold get_possible_moves. rewrite H. reflexivity. Qed.

(** [get_possible_moves] returns a list exactly on the values from 0 up
    to the largest integer that rounds to a finite float. *)
Lemma get_possible_moves_domain s :
  (exists ms, get_possible_moves s = Ok ms) <->
  0 <= current_value s < 2 ^ 1024 - 2 ^ 970.
Proof.
  rewrite <- int_sqrt_domain. unfold get_possible_moves. split.
  - intros [ms H]. destruct (PyFloat.int_sqrt (current_value s)) as [k|e];
      [exists k; reflexivity | discriminate H].
  - intros [k ->]. eexists. reflexivity.
Qed.

Lemma get_possible_moves_negative_exn s :
  current_value s < 0 ->
  get_possible_moves s
  = Raise (if current_value s <=? - (2 ^ 1024 - 2 ^ 970)
           then OverflowError else TypeError).
Proof.
  intros H. unfold get_possible_moves.
  rewrite (int_sqrt_negative_exn _ H). reflexivity.
Qed.

Lemma get_possible_moves_overflow s :
  2 ^ 1024 - 2 ^ 970 <= current_value s ->
  get_possible_moves s = Raise OverflowError.
Proof.
  intros H. unfold get_possible_moves, PyFloat.int_sqrt.
  assert (Ho : PyFloat.float_of_int (current_value s) = Raise OverflowError)
    by (apply float_of_int_overflow; lia).
  rewrite Ho. reflexivity.
Qed.

Lemma get_possible_moves_sorted s ms :
  get_possible_moves s = Ok ms -> StronglySorted Z.lt ms.
Proof.
  intros H. apply get_possible_moves_inv in H. destruct H as (k & _ & ->).
  apply squares_sorted.
Qed.

Lemma move_ge_1 s ms m :
  get_possible_moves s = Ok ms -> In m ms -> 1 <= m.
Proof.
  intros H Hin. apply get_possible_moves_inv in H. destruct H as (k & _ & ->).
  apply squares_In in Hin. destruct Hin as (i & Hi & ->). nia.
Qed.

Lemma moves_need_positive_value s ms :
  get_possible_moves s = Ok ms -> ms <> [] -> 1 <= current_value s.
Proof.
  intros H Hne.
  destruct (Z_lt_le_dec (current_value s) 0) as [Hneg|Hge].
  - destruct (get_possible_moves_negative s Hneg); congruence.
  - destruct (Z.eq_dec (current_value s) 0) as [H0|H0]; [|lia].
    rewrite (get_possible_moves_zero s H0) in H. congruence.
Qed.

(** Below [2^52] the moves are the squares up to the value. *)
Lemma get_possible_moves_exact s :
  0 <= current_value s < 2 ^ 52 ->
  get_possible_moves s
  = Ok (map (fun i => i * i) (py_range 1 (Z.sqrt (current_value s) + 1))).
Proof.
  intros H. unfold get_possible_moves. rewrite int_sqrt_exact by assumption.
  reflexivity.
Qed.

Lemma squares_upto_sqrt v :
  0 <= v -> squares_upto v (map (fun i => i * i) (py_range 1 (Z.sqrt v + 1))).
Proof.
  intros Hv. split; [apply squares_sorted|].
  intros m. rewrite squares_In.
  pose proof (Z.sqrt_spec v Hv) as [Hlo Hhi].
  pose proof (Z.sqrt_nonneg v) as Hs.
  split.
  - intros (i & Hi & ->). exists i. repeat split; try lia. nia.
  - intros (k & Hk & -> & Hle). exists k. split; [|reflexivity].
    split; [lia|]. assert (k < Z.sqrt v + 1); [|lia]. nia.
Qed.

(** * The recursion of [rough_outcome] *)

Lemma scan_moves_ext rec1 rec2 s ms :
  (forall m, In m ms -> rec1 (make_move s m) = rec2 (make_move s m)) ->
  scan_moves rec1 s ms = scan_moves rec2 s ms.
Proof.
  induction ms as [|m ms IH]; intros H; cbn [scan_moves]; [reflexivity|].
  rewrite (H m (or_introl eq_refl)).
  rewrite IH by (intros m' Hm'; apply H; right; assumption). reflexivity.
Qed.

Lemma scan_moves_returns rec s ms :
  (forall m, In m ms -> rec (make_move s m) <> None) ->
  scan_moves rec s ms <> None.
Proof.
  induction ms as [|m ms IH]; intros H; cbn [scan_moves]; [discriminate|].
  pose proof (H m (or_introl eq_refl)) as Hm.
  destruct (rec (make_move s m)) as [[r|e]|]; try congruence; try discriminate.
  destruct (r =? LOSE); [discriminate|].
  apply IH. intros m' Hm'. apply H. right; assumption.
Qed.

Lemma scan_moves_first_lose rec s pre m post :
  (forall m', In m' pre ->
     exists r, rec (make_move s m') = Some (Ok r) /\ r <> LOSE) ->
  rec (make_move s m) = Some (Ok LOSE) ->
  scan_moves rec s (pre ++ m :: post) = Some (Ok WIN).
Proof.
  induction pre as [|x pre IH]; intros Hpre Hm; cbn [app scan_moves].
  - rewrite Hm. reflexivity.
  - destruct (Hpre x (or_introl eq_refl)) as (r & -> & Hr).
    destruct (Z.eqb_spec r LOSE); [contradiction|].
    apply IH; [|assumption]. intros m' Hm'. apply Hpre. right; assumption.
Qed.

Lemma scan_moves_no_lose rec s ms :
  (forall m, In m ms ->
     exists r, rec (make_move s m) = Some (Ok r) /\ r <> LOSE) ->
  scan_moves rec s ms = Some (Ok DRAW).
Proof.
  induction ms as [|x ms IH]; intros H; cbn [scan_moves]; [reflexivity|].
  destruct (H x (or_introl eq_refl)) as (r & -> & Hr).
  destruct (Z.eqb_spec r LOSE); [contradiction|].
  apply IH. intros m Hm. apply H. right; assumption.
Qed.

Lemma scan_moves_spec rec s ms out :
  (forall m, In m ms -> rec (make_move s m) = Some (Ok (out m))) ->
  scan_moves rec s ms
  = Some (Ok (if existsb (fun m => out m =? LOSE) ms then WIN else DRAW)).
Proof.
  induction ms as [|x ms IH]; intros H; cbn [scan_moves existsb]; [reflexivity|].
  rewrite (H x (or_introl eq_refl)).
  destruct (out x =? LOSE); cbn [orb]; [reflexivity|].
  apply IH. intros m Hm. apply H. right; assumption.
Qed.

(** Any two amounts of fuel above [current_value] give the same answer,
    and that answer is not "out of fuel". *)
Lemma rough_outcome_fuel_stable n :
  forall s f1 f2,
    (Z.to_nat (current_value s) <= n)%nat ->
    (Z.to_nat (current_value s) < f1)%nat ->
    (Z.to_nat (current_value s) < f2)%nat ->
    rough_outcome_fuel f1 s = rough_outcome_fuel f2 s /\
    rough_outcome_fuel f1 s <> None.
Proof.
  induction n as [n IH] using lt_wf_ind. intros s f1 f2 Hn H1 H2.
  destruct f1 as [|f1]; [lia|]. destruct f2 as [|f2]; [lia|].
  cbn [rough_outcome_fuel].
  destruct (get_possible_moves s) as [ms|e] eqn:Hms; [|split; [reflexivity|discriminate]].
  destruct ms as [|m0 ms0] eqn:Hl; [split; [reflexivity|discriminate]|].
  rewrite <- Hl in *.
  assert (Hpos : 1 <= current_value s).
  { apply (moves_need_positive_value s ms Hms). subst ms. discriminate. }
  assert (Hsucc : forall m, In m ms ->
            rough_outcome_fuel f1 (make_move s m) = rough_outcome_fuel f2 (make_move s m)
            /\ rough_outcome_fuel f1 (make_move s m) <> None).
  { intros m Hm. pose proof (move_ge_1 s ms m Hms Hm) as Hm1.
    apply (IH (Nat.pred (Z.to_nat (current_value s)))); cbn [make_move current_value]; lia. }
  split.
  - apply scan_moves_ext. intros m Hm. apply Hsucc; assumption.
  - apply scan_moves_returns. intros m Hm. apply Hsucc; assumption.
Qed.

Lemma rough_outcome_fuel_enough s fuel :
  (Z.to_nat (current_value s) < fuel)%nat ->
  rough_outcome_fuel fuel s = rough_outcome s.
Proof.
  intros H. unfold rough_outcome.
  apply (rough_outcome_fuel_stable (Z.to_nat (current_value s))); lia.
Qed.

Lemma rough_outcome_returns s : rough_outcome s <> None.
Proof.
  unfold rough_outcome.
  apply (rough_outcome_fuel_stable (Z.to_nat (current_value s)) s _
           (S (Z.to_nat (current_value s)))); lia.
Qed.

(** The body of the method, with the recursive calls read as calls of
    [rough_outcome] itself. *)
Lemma rough_outcome_unfold s :
  rough_outcome s =
  match get_possible_moves s with
  | Raise e => Some (Raise e)
  | Ok [] => Some (Ok LOSE)
  | Ok ms => scan_moves rough_outcome s ms
  end.
Proof.
  unfold rough_outcome at 1. cbn [rough_outcome_fuel].
  destruct (get_possible_moves s) as [ms|e] eqn:Hms; [|reflexivity].
  destruct ms as [|m0 ms0] eqn:Hl; [reflexivity|]. rewrite <- Hl in *.
  assert (Hpos : 1 <= current_value s).
  { apply (moves_need_positive_value s ms Hms). subst ms. discriminate. }
  apply scan_moves_ext. intros m Hm.
  pose proof (move_ge_1 s ms m Hms Hm) as Hm1.
  apply rough_outcome_fuel_enough. cbn [make_move current_value]. lia.
Qed.

(** Below [2^52], where the moves are the squares up to the value, the
    estimate has a closed form: LOSE at 0, WIN at a positive perfect
    square (the last move tried empties the total), DRAW elsewhere. *)
Lemma rough_outcome_closed_form s :
  0 <= current_value s < 2 ^ 52 ->
  rough_outcome s
  = Some (Ok (if current_value s =? 0 then LOSE
              else if Z.sqrt (current_value s) * Z.sqrt (current_value s)
                      =? current_value s
                   then WIN else DRAW)).
Proof.
  remember (Z.to_nat (current_value s)) as n eqn:Hn.
  revert s Hn. induction n as [n IH] using lt_wf_ind. intros s Hn Hv.
  rewrite rough_outcome_unfold.
  destruct (Z.eqb_spec (current_value s) 0) as [H0|H0].
  { rewrite (get_possible_moves_zero s H0). reflexivity. }
  rewrite (get_possible_moves_exact s Hv).
  set (v := current_value s) in *. set (k := Z.sqrt v).
  pose proof (Z.sqrt_spec v ltac:(lia)) as [Hk1 Hk2]. fold k in Hk1, Hk2.
  pose proof (Z.sqrt_nonneg v) as Hk0. fold k in Hk0.
  assert (Hk : 1 <= k) by nia.
  set (ms := map (fun i => i * i) (py_range 1 (k + 1))).
  set (out := fun m => if v - m =? 0 then LOSE
                       else if Z.sqrt (v - m) * Z.sqrt (v - m) =? v - m
                            then WIN else DRAW).
  assert (Hout : forall m, In m ms -> rough_outcome (make_move s m) = Some (Ok (out m))).
  { intros m Hm. apply squares_In in Hm. destruct Hm as (i & Hi & ->).
    apply (IH (Z.to_nat (v - i * i))); cbn [make_move current_value]; fold v;
      try reflexivity; nia. }
  assert (Hscan : scan_moves rough_outcome s ms
                  = Some (Ok (if k * k =? v then WIN else DRAW))).
  { rewrite (scan_moves_spec rough_outcome s ms out Hout). do 2 f_equal.
    destruct (Z.eqb_spec (k * k) v) as [Hsq|Hsq].
    - replace (existsb (fun m => out m =? LOSE) ms) with true; [reflexivity|].
      symmetry. apply existsb_exists. exists (k * k). split.
      + apply squares_In. exists k. split; [lia|reflexivity].
      + unfold out. replace (v - k * k) with 0 by lia. reflexivity.
    - replace (existsb (fun m => out m =? LOSE) ms) with false; [reflexivity|].
      symmetry. apply not_true_is_false. intros Hex.
      apply existsb_exists in Hex. destruct Hex as (m & Hm & Hl).
      apply squares_In in Hm. destruct Hm as (i & Hi & ->).
      unfold out in Hl. destruct (Z.eqb_spec (v - i * i) 0) as [Hz|Hz].
      + apply Hsq. assert (i = k) by nia. subst i. lia.
      + destruct (Z.sqrt (v - i * i) * Z.sqrt (v - i * i) =? v - i * i);
          discriminate Hl. }
  destruct ms as [|m0 ms0] eqn:Ems; [|exact Hscan].
  exfalso. assert (Hin : In (1 * 1) ms)
    by (apply squares_In; exists 1; split; [lia|reflexivity]).
  rewrite Ems in Hin. exact Hin.
Qed.

(** In that range every successor reached by a move returns an estimate. *)
Lemma successors_return s ms :
  0 <= current_value s < 2 ^ 52 ->
  get_possible_moves s = Ok ms ->
  exists out, forall m, In m ms ->
    rough_outcome (make_move s m) = Some (Ok (out m)).
Proof.
  intros Hv Hms. rewrite (get_possible_moves_exact s Hv) in Hms.
  injection Hms as <-.
  exists (fun m => let v := current_value s - m in
                   if v =? 0 then LOSE
                   else if Z.sqrt v * Z.sqrt v =? v then WIN else DRAW).
  intros m Hm. apply squares_In in Hm. destruct Hm as (i & Hi & ->).
  pose proof (Z.sqrt_spec (current_value s) ltac:(lia)) as [Hk _].
  rewrite rough_outcome_closed_form; [reflexivity|].
  cbn [make_move current_value]. nia.
Qed.

(** * The store *)

Lemma deref_new_old h o r x :
  deref h r = Some x -> deref (fst (new h o)) r = Some x.
Proof.
  unfold deref, new. cbn [fst]. intros H.
  rewrite nth_error_app1; [assumption|].
  apply nth_error_Some. congruence.
Qed.

Lemma deref_new_fresh h o : deref (fst (new h o)) (snd (new h o)) = Some o.
Proof.
  unfold deref, new. cbn [fst snd].
  rewrite nth_error_app2 by lia. rewrite Nat.sub_diag. reflexivity.
Qed.

Lemma new_fresh h o r x : deref h r = Some x -> snd (new h o) <> r.
Proof.
  unfold deref, new. cbn [snd]. intros H Heq. subst r.
  assert (nth_error h (List.length h) = None) by (apply nth_error_None; lia).
  congruence.
Qed.

(** * Sequences of moves *)

Lemma play_turn s moves :
  p1_turn (play s moves)
  = if Nat.even (List.length moves) then p1_turn s else negb (p1_turn s).
Proof.
  unfold play. revert s.
  induction moves as [|m moves IH]; intros s; [reflexivity|].
  cbn [fold_left List.length]. rewrite IH. cbn [make_move p1_turn].
  rewrite Nat.even_succ, <- Nat.negb_even.
  destruct (Nat.even (List.length moves)), (p1_turn s); reflexivity.
Qed.

(** * Strings *)

Lemma append_inv_head (p a b : string) :
  (p ++ a)%string = (p ++ b)%string -> a = b.
Proof.
  induction p as [|c p IH]; cbn [String.append]; [trivial|].
  intros [= H]. apply IH. exact H.
Qed.

Lemma length_append (a b : string) :
  String.length (a ++ b) = (String.length a + String.length b)%nat.
Proof.
  induction a as [|c a IH]; cbn [String.append String.length]; [reflexivity|].
  rewrite IH. reflexivity.
Qed.

Lemma append_inv_tail (a b t : string) :
  (a ++ t)%string = (b ++ t)%string -> a = b.
Proof.
  revert b. induction a as [|c a IH]; intros [|c' b] H; cbn [String.append] in H.
  - reflexivity.
  - apply (f_equal String.length) in H. cbn [String.length] in H.
    rewrite length_append in H. lia.
  - apply (f_equal String.length) in H. cbn [String.length] in H.
    rewrite length_append in H. lia.
  - injection H as -> H. f_equal. apply IH. exact H.
Qed.

Lemma py_str_int_inj a b : py_str_int a = py_str_int b -> a = b.
Proof.
  unfold py_str_int. intros H.
  apply (f_equal NilZero.int_of_string) in H.
  assert (Hnn : forall z, Z.to_int z <> Decimal.Pos Decimal.Nil /\
                          Z.to_int z <> Decimal.Neg Decimal.Nil).
  { intros [|p|p]; cbn [Z.to_int]; split; try discriminate;
      intros [= E]; revert E; apply Unsigned.to_uint_nonnil. }
  rewrite !NilZero.isi in H by apply Hnn.
  injection H as H. apply DecimalZ.to_int_inj. exact H.
Qed.

(** * Claims *)

(** C1. For a state with [current_value >= 0], [rough_outcome] is the
    algorithm of the specification: the moves are tried in the ascending
    order of [get_possible_moves]; without a move the result is LOSE; the
    first move whose successor's own [rough_outcome] is LOSE gives WIN,
    whatever the later moves would do, and no sign is flipped; when every
    successor returns something else than LOSE the result is DRAW.  The
    method agrees with [spec_rough_outcome] on the estimates its
    successors return, and below [2^52] every successor does return one. *)
Theorem C1_rough_outcome_algorithm s ms :
  0 <= current_value s ->
  get_possible_moves s = Ok ms ->
  StronglySorted Z.lt ms /\
  (ms = [] -> rough_outcome s = Some (Ok LOSE)) /\
  (forall pre m post,
      ms = pre ++ m :: post ->
      (forall m', In m' pre ->
         exists r, rough_outcome (make_move s m') = Some (Ok r) /\ r <> LOSE) ->
      rough_outcome (make_move s m) = Some (Ok LOSE) ->
      rough_outcome s = Some (Ok WIN)) /\
  (ms <> [] ->
   (forall m, In m ms ->
      exists r, rough_outcome (make_move s m) = Some (Ok r) /\ r <> LOSE) ->
   rough_outcome s = Some (Ok DRAW)) /\
  (forall out,
      (forall m, In m ms -> rough_outcome (make_move s m) = Some (Ok (out m))) ->
      rough_outcome s = Some (Ok (spec_rough_outcome ms out))) /\
  (current_value s < 2 ^ 52 ->
   exists out,
     (forall m, In m ms -> rough_outcome (make_move s m) = Some (Ok (out m))) /\
     rough_outcome s = Some (Ok (spec_rough_outcome ms out))).
Proof.
  intros Hv Hms.
  assert (Hspec : forall out,
      (forall m, In m ms -> rough_outcome (make_move s m) = Some (Ok (out m))) ->
      rough_outcome s = Some (Ok (spec_rough_outcome ms out))).
  { intros out Hout. rewrite rough_outcome_unfold, Hms.
    destruct ms as [|x l]; [reflexivity|].
    rewrite (scan_moves_spec rough_outcome s (x :: l) out Hout). reflexivity. }
  split; [eapply get_possible_moves_sorted; eassumption|].
  split; [intros ->; rewrite rough_outcome_unfold, Hms; reflexivity|].
  split; [|split; [|split]].
  - intros pre m post -> Hpre Hm. rewrite rough_outcome_unfold, Hms.
    assert (E : scan_moves rough_outcome s (pre ++ m :: post) = Some (Ok WIN))
      by (apply scan_moves_first_lose; assumption).
    destruct pre; cbn [app] in *; exact E.
  - intros Hne Hall. rewrite rough_outcome_unfold, Hms.
    destruct ms as [|x l]; [congruence|].
    apply scan_moves_no_lose. assumption.
  - exact Hspec.
  - intros Hlt. destruct (successors_return s ms ltac:(lia) Hms) as [out Hout].
    exists out. split; [exact Hout | apply Hspec; exact Hout].
Qed.

Lemma C1_rough_outcome_algorithm_witness :
  0 <= current_value (mkState true 2) /\
  get_possible_moves (mkState true 2) = Ok [1] /\
  rough_outcome (mkState true 2) = Some (Ok DRAW).
Proof.
  split; [vm_compute; discriminate|]. split; [reflexivity|].
  apply (C1_rough_outcome_algorithm (mkState true 2) [1]).
  - vm_compute; discriminate.
  - reflexivity.
  - discriminate.
  - intros m [<-|[]]. exists WIN. split; [reflexivity|discriminate].
Defined.

(** Where the conversion to a float is exact, the moves are the squares up
    to the value, in ascending order. *)
Lemma get_possible_moves_squares s :
  0 <= current_value s < 2 ^ 52 ->
  exists ms, get_possible_moves s = Ok ms /\ squares_upto (current_value s) ms.
Proof.
  intros H. eexists. split; [apply get_possible_moves_exact; assumption|].
  apply squares_upto_sqrt. lia.
Qed.

Example get_possible_moves_10 :
  get_possible_moves (mkState true 10) = Ok [1; 4; 9].
Proof. reflexivity. Qed.

(** C2. At [current_value = 2^60 - 1] the conversion to a float rounds the
    value up to [2^60], whose square root is [2^30]: the list of moves ends
    with [2^60], a square above [current_value].  The moves are then not
    the squares up to the value. *)
Theorem C2_float_root_overshoots :
  let s := mkState true 1152921504606846975 in
  current_value s = 2 ^ 60 - 1 /\
  exists ms, get_possible_moves s = Ok ms /\
             In (2 ^ 60) ms /\
             ~ squares_upto (current_value s) ms.
Proof.
  intros s. split; [reflexivity|].
  assert (Hk : PyFloat.int_sqrt 1152921504606846975 = Ok 1073741824)
    by (vm_compute; reflexivity).
  assert (Hin : In (2 ^ 60) (map (fun i => i * i) (py_range 1 (1073741824 + 1)))).
  { apply squares_In. exists 1073741824. split; [lia | reflexivity]. }
  exists (map (fun i => i * i) (py_range 1 (1073741824 + 1))).
  split; [|split].
  - unfold get_possible_moves, s. cbn [current_value]. rewrite Hk. reflexivity.
  - exact Hin.
  - intros [_ Hiff]. destruct (proj1 (Hiff (2 ^ 60)) Hin) as (k & _ & Hk2 & Hle).
    unfold s in Hle. cbn [current_value] in Hle.
    assert (2 ^ 60 = 1152921504606846976) by reflexivity. lia.
Qed.

(** C3. From a live object [self] holding [s], and a move [m] of
    [get_possible_moves], [make_move] returns a reference [t] to a new
    object: [t] differs from [self], holds [current_value - m] and the
    flipped turn, and every object of the old store, [self] included, is
    unchanged. *)
Theorem C3_make_move_valid (h : store) (self : ref) s ms m :
  deref h self = Some s ->
  get_possible_moves s = Ok ms ->
  In m ms ->
  exists h' t,
    make_move_obj h self m = Some (h', t) /\
    deref h' t = Some (make_move s m) /\
    current_value (make_move s m) = current_value s - m /\
    p1_turn (make_move s m) = negb (p1_turn s) /\
    t <> self /\
    deref h' self = Some s /\
    (forall r o, deref h r = Some o -> deref h' r = Some o).
Proof.
  intros Hself _ _. unfold make_move_obj. rewrite Hself.
  exists (fst (new h (make_move s m))), (snd (new h (make_move s m))).
  split; [reflexivity|]. split; [apply deref_new_fresh|].
  split; [reflexivity|]. split; [reflexivity|].
  split; [eapply new_fresh; eassumption|].
  split; [apply deref_new_old; assumption|].
  intros r o Hr. apply deref_new_old. assumption.
Qed.

Lemma C3_make_move_valid_witness :
  deref [mkState true 10] 0%nat = Some (mkState true 10) /\
  get_possible_moves (mkState true 10) = Ok [1; 4; 9] /\
  In 9 [1; 4; 9] /\
  exists h' t,
    make_move_obj [mkState true 10] 0%nat 9 = Some (h', t) /\
    deref h' t = Some (mkState false 1) /\ t <> 0%nat.
Proof.
  split; [reflexivity|]. split; [reflexivity|]. split; [simpl; tauto|].
  destruct (C3_make_move_valid [mkState true 10] 0%nat (mkState true 10) [1; 4; 9] 9)
    as (h' & t & H1 & H2 & _ & _ & H3 & _).
  - reflexivity.
  - reflexivity.
  - simpl; tauto.
  - exists h', t. repeat split; assumption.
Defined.

(** C4. The estimates the specification fixes for small positions, for
    either player to move: value 0 has no move and is LOSE, value 1 is
    WIN, values 2 and 3 are DRAW. *)
Theorem C4_small_positions (b : bool) :
  get_possible_moves (mkState b 0) = Ok [] /\
  rough_outcome (mkState b 0) = Some (Ok LOSE) /\
  rough_outcome (mkState b 1) = Some (Ok WIN) /\
  rough_outcome (mkState b 2) = Some (Ok DRAW) /\
  rough_outcome (mkState b 3) = Some (Ok DRAW).
Proof. destruct b; repeat split; reflexivity. Qed.

(** C5. [rough_outcome] terminates on every state with
    [current_value >= 0]: one result is reached with any fuel above
    [current_value]; every move is at least 1, so each recursive call is
    on a strictly smaller value; at value 0 there is no move and the
    method returns LOSE without recursion.  Below [2^52] the result is a
    returned estimate, never an exception. *)
Theorem C5_rough_outcome_terminates s :
  0 <= current_value s ->
  (exists r, rough_outcome s = Some r /\
             forall fuel, (Z.to_nat (current_value s) < fuel)%nat ->
                          rough_outcome_fuel fuel s = Some r) /\
  (forall ms m, get_possible_moves s = Ok ms -> In m ms ->
                1 <= m /\ current_value (make_move s m) < current_value s) /\
  (current_value s = 0 ->
   get_possible_moves s = Ok [] /\ rough_outcome s = Some (Ok LOSE)) /\
  (current_value s < 2 ^ 52 ->
   exists r, rough_outcome s = Some (Ok r) /\ (r = LOSE \/ r = WIN \/ r = DRAW)).
Proof.
  intros Hv. split; [|split; [|split]].
  - destruct (rough_outcome s) as [r|] eqn:E.
    + exists r. split; [reflexivity|]. intros fuel Hf.
      rewrite rough_outcome_fuel_enough by assumption. exact E.
    + exfalso. revert E. apply rough_outcome_returns.
  - intros ms m Hms Hm. pose proof (move_ge_1 s ms m Hms Hm).
    cbn [make_move current_value]. lia.
  - intros H0. pose proof (get_possible_moves_zero s H0) as Hz.
    split; [assumption|]. rewrite rough_outcome_unfold, Hz. reflexivity.
  - intros Hlt. rewrite rough_outcome_closed_form by lia.
    eexists. split; [reflexivity|].
    destruct (current_value s =? 0); [auto|].
    destruct (_ =? _); auto.
Qed.

Lemma C5_rough_outcome_terminates_witness :
  0 <= current_value (mkState true 5) /\
  exists r, rough_outcome (mkState true 5) = Some r.
Proof.
  split; [vm_compute; discriminate|].
  destruct (C5_rough_outcome_terminates (mkState true 5)) as [(r & Hr & _) _].
  - vm_compute; discriminate.
  - exists r. exact Hr.
Defined.

(** C6 (as stated, refuted). With [current_value = -1], below 1,
    [get_possible_moves] raises [TypeError]: it does not return the empty
    list. *)
Lemma C6_negative_value_counterexample :
  current_value (mkState true (-1)) < 1 /\
  get_possible_moves (mkState true (-1)) = Raise TypeError /\
  get_possible_moves (mkState true (-1)) <> Ok [].
Proof.
  split; [reflexivity|]. split; [reflexivity|].
  change (get_possible_moves (mkState true (-1))) with (@Raise (list Z) TypeError).
  discriminate.
Qed.

(** C6 (amended). A state with [current_value < 1] either has value 0,
    and then [get_possible_moves] returns the empty list, or has a
    negative value, and then [get_possible_moves] returns no list: it
    raises [TypeError], or [OverflowError] when the value does not fit a
    float. *)
Theorem C6_terminal_or_raises s :
  current_value s < 1 ->
  (current_value s = 0 /\ get_possible_moves s = Ok []) \/
  (current_value s < 0 /\
   get_possible_moves s
   = Raise (if current_value s <=? - (2 ^ 1024 - 2 ^ 970)
            then OverflowError else TypeError)).
Proof.
  intros H. destruct (Z.eq_dec (current_value s) 0) as [H0|H0].
  - left. split; [assumption | apply get_possible_moves_zero; assumption].
  - right. split; [lia|]. apply get_possible_moves_negative_exn. lia.
Qed.

Lemma C6_terminal_or_raises_witness :
  current_value (mkState true 0) < 1 /\
  get_possible_moves (mkState true 0) = Ok [].
Proof.
  split; [reflexivity|].
  destruct (C6_terminal_or_raises (mkState true 0)) as [[_ H]|[H _]].
  - reflexivity.
  - exact H.
  - discriminate H.
Defined.

(** C7. Two states have the same [__repr__] exactly when they have the
    same [p1_turn] and the same [current_value]. *)
Theorem C7_repr_canonical s1 s2 :
  __repr__ s1 = __repr__ s2 <->
  p1_turn s1 = p1_turn s2 /\ current_value s1 = current_value s2.
Proof.
  split.
  - unfold __repr__. intros H. apply append_inv_head in H.
    assert (Hb : p1_turn s1 = p1_turn s2).
    { destruct (p1_turn s1), (p1_turn s2); try reflexivity;
        cbn in H; discriminate H. }
    split; [exact Hb|]. rewrite Hb in H.
    apply append_inv_head in H. apply append_inv_head in H.
    apply append_inv_tail in H. apply py_str_int_inj. exact H.
  - intros [Hb Hv]. unfold __repr__. rewrite Hb, Hv. reflexivity.
Qed.

(** C8. [make_move] checks nothing: for every integer [m] it returns a
    state with [current_value - m] and the flipped turn, on a live object
    it always allocates the successor, and a move outside
    [get_possible_moves] can leave a negative value. *)
Theorem C8_make_move_unchecked :
  (forall s m,
      current_value (make_move s m) = current_value s - m /\
      p1_turn (make_move s m) = negb (p1_turn s)) /\
  (forall h self s m,
      deref h self = Some s ->
      exists h' t, make_move_obj h self m = Some (h', t) /\
                   deref h' t = Some (make_move s m)) /\
  (exists s m,
      0 <= current_value s /\
      is_valid_move s m = Ok false /\
      current_value (make_move s m) < 0).
Proof.
  split; [|split].
  - intros s m. split; reflexivity.
  - intros h self s m Hself. unfold make_move_obj. rewrite Hself.
    eexists _, _. split; [reflexivity|]. apply deref_new_fresh.
  - exists (mkState true 3), 4.
    split; [cbn [current_value]; lia|]. split; reflexivity.
Qed.

(** C9. Starting with player 1 to move, after [n] successive valid moves
    it is player 1's turn exactly when [n] is even. *)
Theorem C9_turn_alternation s moves :
  p1_turn s = true ->
  valid_play s moves ->
  p1_turn (play s moves) = Nat.even (List.length moves).
Proof.
  intros Hp _. rewrite play_turn, Hp.
  destruct (Nat.even (List.length moves)); reflexivity.
Qed.

Lemma C9_turn_alternation_witness :
  p1_turn (mkState true 10) = true /\
  valid_play (mkState true 10) [9; 1] /\
  p1_turn (play (mkState true 10) [9; 1]) = true.
Proof.
  split; [reflexivity|]. split; [repeat split|].
  apply (C9_turn_alternation (mkState true 10) [9; 1]).
  - reflexivity.
  - repeat split.
Defined.

(** C10 (as stated, refuted). The value [2^1024] is not negative, yet
    [get_possible_moves] raises [OverflowError] there: the method is not
    total on the states with [current_value >= 0]. *)
Lemma C10_overflow_counterexample :
  0 <= current_value (mkState true (2 ^ 1024)) /\
  get_possible_moves (mkState true (2 ^ 1024)) = Raise OverflowError /\
  ~ (forall s, 0 <= current_value s -> exists ms, get_possible_moves s = Ok ms).
Proof.
  assert (H : get_possible_moves (mkState true (2 ^ 1024)) = Raise OverflowError)
    by (vm_compute; reflexivity).
  split; [vm_compute; discriminate|]. split; [exact H|].
  intros Hall. destruct (Hall (mkState true (2 ^ 1024))) as [ms Hms].
  - vm_compute; discriminate.
  - rewrite H in Hms. discriminate Hms.
Qed.

(** C10 (amended). On a negative value [get_possible_moves] raises
    instead of returning a list, and so do [is_valid_move] and
    [rough_outcome], which call it: a non-negative value is necessary for
    these queries.  A list is returned for every value from 0 up to
    [2^1024 - 2^970], excluded. *)
Theorem C10_moves_domain s :
  (current_value s < 0 ->
   exists e, get_possible_moves s = Raise e /\
             (forall m, is_valid_move s m = Raise e) /\
             rough_outcome s = Some (Raise e)) /\
  ((exists ms, get_possible_moves s = Ok ms) -> 0 <= current_value s) /\
  (0 <= current_value s < 2 ^ 1024 - 2 ^ 970 ->
   exists ms, get_possible_moves s = Ok ms).
Proof.
  split; [|split].
  - intros Hneg. pose proof (get_possible_moves_negative_exn s Hneg) as He.
    eexists. split; [exact He|]. split.
    + intros m. unfold is_valid_move. rewrite He. reflexivity.
    + rewrite rough_outcome_unfold, He. reflexivity.
  - intros H. apply get_possible_moves_domain in H. lia.
  - apply get_possible_moves_domain.
Qed.

(** * Further properties: the float root of a positive integer *)

(** *** Magnitudes: rounding never lowers the position of the leading bit *)

Lemma binary_round_aux_magnitude sx m e l p e2 :
  0 < m -> -1074 < Zdigits2 m + e ->
  binary_round_aux 53 1024 sx m e l = S754_finite sx p e2 ->
  Zdigits2 m + e <= Zdigits2 (Zpos p) + e2.
Proof.
  intros Hm Hd. rewrite binary_round_aux_spec by lia.
  set (e1 := Z.max e (fexp64 (Zdigits2 m + e))).
  set (m1 := round_nearest_even _ _).
  set (e2' := Z.max e1 (fexp64 (Zdigits2 m1 + e1))).
  pose proof (fexp_eq (Zdigits2 m + e)) as F1.
  pose proof (fexp_eq (Zdigits2 m1 + e1)) as F2.
  pose proof (round_nearest_even_bounds (m / 2 ^ (e1 - e))
      (loc_of_shr_record (fst (shr_fexp 53 1024 m e l)))) as Hr. fold m1 in Hr.
  pose proof (Zdigits2_ge m 0 ltac:(lia) ltac:(simpl; lia)) as P0.
  pose proof (Zdigits2_div_pow2_ge m (e1 - e) Hm ltac:(lia)) as [G1 G2].
  pose proof (Zdigits2_mono (m / 2 ^ (e1 - e)) m1 ltac:(lia)) as D2.
  pose proof (Zdigits2_ge m1 0 ltac:(lia) ltac:(simpl; lia)) as P1.
  pose proof (Zdigits2_div_pow2_ge m1 (e2' - e1) ltac:(lia) ltac:(lia)) as [G3 G4].
  destruct (m1 / 2 ^ (e2' - e1)) as [|p'|p'] eqn:E; try discriminate.
  destruct (e2' <=? 971); [|discriminate].
  intros [= <- <-]. lia.
Qed.

Lemma float_of_int_positive n x :
  0 < n -> PyFloat.float_of_int n = Ok x ->
  exists m e, x = S754_finite false m e /\
              Zdigits2 (Zpos m) <= 53 /\ e <= 971 /\
              1 <= Zdigits2 (Zpos m) + e.
Proof.
  intros Hn Hx. destruct n as [|p|p]; try lia.
  unfold PyFloat.float_of_int, PyFloat.prec, PyFloat.emax in Hx.
  cbn [binary_normalize] in Hx.
  destruct (binary_round_int_cases false p) as [Hi|(m & e & Hf & Hd & He)].
  - rewrite Hi in Hx. discriminate Hx.
  - rewrite Hf in Hx. injection Hx as <-. exists m, e.
    repeat split; try assumption.
    unfold binary_round in Hf.
    destruct (shl_align_spec p 0 (fexp64 (Zpos (digits2_pos p) + 0))) as [Hez Hmz].
    destruct (shl_align p 0 (fexp64 (Zpos (digits2_pos p) + 0))) as [mz ez].
    cbn [fst snd] in *.
    pose proof (fexp_eq (Zpos (digits2_pos p) + 0)) as F.
    pose proof (Zdigits2_ge (Zpos p) 0 ltac:(lia) ltac:(simpl; lia)) as P0.
    assert (Hmag : Zdigits2 (Zpos mz) + ez = Zdigits2 (Zpos p)).
    { rewrite Hmz, Zdigits2_mul_pow2 by lia. lia. }
    pose proof (binary_round_aux_magnitude false (Zpos mz) ez loc_Exact m e
                  ltac:(lia) ltac:(lia) Hf). lia.
Qed.

Lemma sqrt_digits_lower x j :
  0 <= j -> 2 ^ (2 * j) <= x -> j < Zdigits2 (Z.sqrt x).
Proof.
  intros Hj Hx. apply Zdigits2_ge; [assumption|].
  pose proof (pow2_pos j Hj).
  apply Z.sqrt_le_square; try lia.
  rewrite <- Z.pow_add_r by lia. replace (j + j) with (2 * j) by lia. assumption.
Qed.

(** The truncated root of a float that is at least 1 is at least 1. *)
Lemma trunc_sqrt_positive m e r :
  Zdigits2 (Zpos m) <= 53 -> e <= 971 -> 1 <= Zdigits2 (Zpos m) + e ->
  PyFloat.trunc (SFsqrt 53 1024 (S754_finite false m e)) = Ok r -> 1 <= r.
Proof.
  intros Hd He Hmag. cbn [SFsqrt].
  rewrite SFsqrt_core_binary_spec by lia.
  set (dm := Zdigits2 (Zpos m)) in *.
  set (e' := Z.min (fexp64 (Z.div2 (dm + e + 1))) (Z.div2 e)).
  set (m' := Zpos m * 2 ^ (e - 2 * e')).
  set (q := Z.sqrt m').
  set (l := if m' - q * q =? 0 then _ else _).
  assert (Hs : 0 <= e - 2 * e' /\ dm + e - e' <= 1023 /\ e' <= 971 /\
               -1074 <= e' /\ (dm + (e - 2 * e') - 1) / 2 + e' >= 0).
  { unfold e'. rewrite !Z.div2_div, fexp_eq.
    pose proof (Z.div_mod e 2 ltac:(lia)). pose proof (Z.mod_pos_bound e 2 ltac:(lia)).
    pose proof (Z.div_mod (dm + e + 1) 2 ltac:(lia)).
    pose proof (Z.mod_pos_bound (dm + e + 1) 2 ltac:(lia)).
    set (e0 := Z.min (Z.max ((dm + e + 1) / 2 - 53) (-1074)) (e / 2)).
    pose proof (Z.div_mod (dm + (e - 2 * e0) - 1) 2 ltac:(lia)).
    pose proof (Z.mod_pos_bound (dm + (e - 2 * e0) - 1) 2 ltac:(lia)).
    unfold e0 in *. lia. }
  destruct Hs as (Hs & Hb & He' & He'lo & Hj).
  pose proof (Zdigits2_ge (Zpos m) 0 ltac:(lia) ltac:(simpl; lia)) as P0. fold dm in P0.
  assert (Hm'pos : 0 < m') by (unfold m'; pose proof (pow2_pos _ Hs); nia).
  assert (Hdm' : Zdigits2 m' = dm + (e - 2 * e')).
  { unfold m'. rewrite Zdigits2_mul_pow2 by lia. reflexivity. }
  set (j := (dm + (e - 2 * e') - 1) / 2) in *.
  assert (Hj0 : 0 <= j).
  { unfold j. apply Z.div_pos; lia. }
  assert (Hjq : j < Zdigits2 q).
  { apply sqrt_digits_lower; [assumption|].
    pose proof (Zdigits2_bounds m' Hm'pos) as [Hlo _]. rewrite Hdm' in Hlo.
    assert (2 ^ (2 * j) <= 2 ^ (dm + (e - 2 * e') - 1)); [|lia].
    apply Z.pow_le_mono_r; [lia|]. unfold j.
    pose proof (Z.div_mod (dm + (e - 2 * e') - 1) 2 ltac:(lia)).
    pose proof (Z.mod_pos_bound (dm + (e - 2 * e') - 1) 2 ltac:(lia)). lia. }
  assert (Hq : 0 < q <= m').
  { split; [|apply Z.sqrt_le_lin; lia].
    destruct (Z.eq_dec q 0) as [E|E]; [rewrite E in Hjq; simpl in Hjq; lia|].
    pose proof (Z.sqrt_nonneg m'). fold q in H. lia. }
  assert (Hdq : Zdigits2 q + e' <= 1023).
  { pose proof (Zdigits2_mono q m' ltac:(lia)). lia. }
  destruct (binary_round_aux_finite false q e' l) as [Hz|(p & e2 & Hf & Hp & He2)];
    try lia.
  - destruct (binary_round_aux_nonzero false q e' l) as [Hi|(p & e2 & Hf & _)];
      try lia; congruence.
  - pose proof (binary_round_aux_magnitude false q e' l p e2
                  ltac:(lia) ltac:(lia) Hf) as Hmg.
    rewrite Hf. cbn [PyFloat.trunc cond_Zopp]. intros [= <-].
    pose proof (Zdigits2_ge (Zpos p) 0 ltac:(lia) ltac:(simpl; lia)) as Pp.
    destruct (Z.leb_spec 0 e2).
    + rewrite Z.shiftl_mul_pow2 by lia. pose proof (pow2_pos e2 ltac:(lia)). nia.
    + rewrite Z.shiftr_div_pow2 by lia.
      apply (Zdigits2_div_pow2_ge (Zpos p) (- e2)); lia.
Qed.

(** [int(n ** 0.5)] is at least 1 on a positive integer. *)
Lemma int_sqrt_positive n k :
  1 <= n -> PyFloat.int_sqrt n = Ok k -> 1 <= k.
Proof.
  intros Hn. unfold PyFloat.int_sqrt.
  destruct (PyFloat.float_of_int n) as [x|err] eqn:Hx; cbn [bind]; [|discriminate].
  destruct (float_of_int_positive n x ltac:(lia) Hx) as (m & e & -> & Hd & He & Hmag).
  cbn [PyFloat.pow_half PyFloat.int_of]. apply trunc_sqrt_positive; assumption.
Qed.

(** * Further properties: the moves *)

Lemma one_is_a_move s ms :
  1 <= current_value s -> get_possible_moves s = Ok ms -> In 1 ms.
Proof.
  intros Hv Hms. apply get_possible_moves_inv in Hms. destruct Hms as (k & Hk & ->).
  pose proof (int_sqrt_positive _ _ Hv Hk).
  apply squares_In. exists 1. split; [lia|reflexivity].
Qed.

Lemma no_move_iff_zero s :
  get_possible_moves s = Ok [] <-> current_value s = 0.
Proof.
  split; [|apply get_possible_moves_zero].
  intros H. destruct (Z_lt_le_dec (current_value s) 0) as [Hneg|Hge].
  - destruct (get_possible_moves_negative s Hneg); congruence.
  - destruct (Z.eq_dec (current_value s) 0) as [?|Hne]; [assumption|].
    exfalso. apply (one_is_a_move s [] ltac:(lia) H).
Qed.

(** X1. The only state without a move is the one with value 0: the list
    of moves is empty exactly when [current_value] is 0 (a negative or a
    too large value raises), and on every positive value for which a list
    is returned, 1 is a move. *)
Theorem X1_terminal_iff_zero s :
  (get_possible_moves s = Ok [] <-> current_value s = 0) /\
  (forall ms, get_possible_moves s = Ok ms -> 1 <= current_value s -> In 1 ms).
Proof.
  split; [apply no_move_iff_zero|].
  intros ms Hms Hv. eapply one_is_a_move; eassumption.
Qed.

(** X2. Whatever the value, the list returned is the run of the first
    squares without gap or repetition: its element of index [i] is
    [(i + 1)^2]. *)
Theorem X2_moves_are_first_squares s ms i :
  get_possible_moves s = Ok ms ->
  (i < List.length ms)%nat ->
  nth_error ms i = Some ((Z.of_nat i + 1) * (Z.of_nat i + 1)).
Proof.
  intros Hms Hi. apply get_possible_moves_inv in Hms. destruct Hms as (k & _ & ->).
  unfold py_range in *. rewrite !length_map, length_seq in Hi.
  rewrite !nth_error_map.
  rewrite (nth_error_nth' _ 0%nat) by (rewrite length_seq; assumption).
  rewrite seq_nth by assumption. cbn [option_map]. f_equal.
  rewrite Nat.add_0_l. lia.
Qed.

Lemma X2_moves_are_first_squares_witness :
  get_possible_moves (mkState true 10) = Ok [1; 4; 9] /\
  (2 < List.length [1; 4; 9])%nat /\
  nth_error [1; 4; 9] 2 = Some 9.
Proof.
  split; [reflexivity|]. split; [simpl; lia|].
  apply (X2_moves_are_first_squares (mkState true 10) [1; 4; 9] 2).
  - reflexivity.
  - simpl; lia.
Defined.

Lemma is_valid_move_returns s m :
  0 <= current_value s < 2 ^ 52 -> exists b, is_valid_move s m = Ok b.
Proof.
  intros Hv. unfold is_valid_move. rewrite (get_possible_moves_exact s Hv).
  eexists. reflexivity.
Qed.

(** X3. Where the float arithmetic is exact (value below [2^52]),
    [is_valid_move] returns, and answers [True] exactly for the positive
    perfect squares that do not exceed [current_value]. *)
Theorem X3_is_valid_move_decides s m :
  0 <= current_value s < 2 ^ 52 ->
  exists b, is_valid_move s m = Ok b /\
            (b = true <-> exists k, 1 <= k /\ m = k * k /\ m <= current_value s).
Proof.
  intros Hv. unfold is_valid_move. rewrite (get_possible_moves_exact s Hv).
  cbn [bind]. eexists. split; [reflexivity|].
  rewrite existsb_exists.
  destruct (squares_upto_sqrt (current_value s) ltac:(lia)) as [_ Hiff].
  split.
  - intros (x & Hx & Heq). apply Z.eqb_eq in Heq. subst x.
    apply Hiff in Hx. destruct Hx as (k & Hk & -> & Hle). exists k. auto.
  - intros (k & Hk & -> & Hle). exists (k * k). split; [|apply Z.eqb_refl].
    apply Hiff. exists k. auto.
Qed.

Lemma X3_is_valid_move_decides_witness :
  0 <= current_value (mkState true 10) < 2 ^ 52 /\
  exists b, is_valid_move (mkState true 10) 9 = Ok b.
Proof.
  split; [vm_compute; split; [discriminate|reflexivity]|].
  destruct (X3_is_valid_move_decides (mkState true 10) 9) as (b & Hb & _).
  - vm_compute; split; [discriminate|reflexivity].
  - exists b. exact Hb.
Defined.

Lemma is_valid_move_In s m :
  is_valid_move s m = Ok true <->
  exists ms, get_possible_moves s = Ok ms /\ In m ms.
Proof.
  unfold is_valid_move. destruct (get_possible_moves s) as [ms|e]; cbn [bind].
  - split.
    + intros [= H]. apply existsb_exists in H. destruct H as (x & Hx & Heq).
      apply Z.eqb_eq in Heq. subst x. exists ms. auto.
    + intros (ms' & [= <-] & Hin). f_equal. apply existsb_exists.
      exists m. split; [assumption|apply Z.eqb_refl].
  - split; [discriminate|]. intros (ms' & H & _). discriminate H.
Qed.

Lemma valid_move_range s m :
  0 <= current_value s < 2 ^ 52 ->
  is_valid_move s m = Ok true ->
  1 <= m <= current_value s.
Proof.
  intros Hv H. apply is_valid_move_In in H. destruct H as (ms & Hms & Hin).
  rewrite (get_possible_moves_exact s Hv) in Hms. injection Hms as <-.
  destruct (squares_upto_sqrt (current_value s) ltac:(lia)) as [_ Hiff].
  apply Hiff in Hin. destruct Hin as (k & Hk & -> & Hle). nia.
Qed.

(** X4. Below [2^52] a move accepted by [is_valid_move] keeps the value
    non-negative and makes it strictly smaller. *)
Theorem X4_valid_move_keeps_value s m :
  0 <= current_value s < 2 ^ 52 ->
  is_valid_move s m = Ok true ->
  0 <= current_value (make_move s m) < current_value s.
Proof.
  intros Hv H. pose proof (valid_move_range s m Hv H).
  cbn [make_move current_value]. lia.
Qed.

Lemma X4_valid_move_keeps_value_witness :
  0 <= current_value (mkState true 10) < 2 ^ 52 /\
  is_valid_move (mkState true 10) 4 = Ok true /\
  0 <= current_value (make_move (mkState true 10) 4) < 10.
Proof.
  split; [vm_compute; split; [discriminate|reflexivity]|]. split; [reflexivity|].
  apply (X4_valid_move_keeps_value (mkState true 10) 4).
  - vm_compute; split; [discriminate|reflexivity].
  - reflexivity.
Defined.

(** X5. Below [2^52] a sequence of valid moves never makes the value
    negative, and each of its moves costs at least 1: a game started at
    value [v] has at most [v] moves. *)
Theorem X5_valid_play_bounded s ms :
  0 <= current_value s < 2 ^ 52 ->
  valid_play s ms ->
  0 <= current_value (play s ms) /\
  current_value (play s ms) + Z.of_nat (List.length ms) <= current_value s.
Proof.
  revert s. induction ms as [|m ms IH]; intros s Hv Hp.
  - cbn. lia.
  - destruct Hp as [Hm Hp]. pose proof (valid_move_range s m Hv Hm) as Hr.
    assert (Hv' : 0 <= current_value (make_move s m) < 2 ^ 52)
      by (cbn [make_move current_value]; lia).
    destruct (IH (make_move s m) Hv' Hp) as [H1 H2].
    unfold play in *. cbn [fold_left List.length].
    cbn [make_move current_value] in H2. split; [exact H1|]. lia.
Qed.

Lemma X5_valid_play_bounded_witness :
  0 <= current_value (mkState true 10) < 2 ^ 52 /\
  valid_play (mkState true 10) [4; 4; 1] /\
  0 <= current_value (play (mkState true 10) [4; 4; 1]).
Proof.
  split; [vm_compute; split; [discriminate|reflexivity]|].
  split; [repeat split|].
  apply (X5_valid_play_bounded (mkState true 10) [4; 4; 1]).
  - vm_compute; split; [discriminate|reflexivity].
  - repeat split.
Defined.

(** * Further properties: composing moves *)

Lemma play_value s ms :
  current_value (play s ms) = current_value s - fold_right Z.add 0 ms.
Proof.
  unfold play. revert s. induction ms as [|m ms IH]; intros s.
  - cbn. lia.
  - cbn [fold_left fold_right]. rewrite IH. cbn [make_move current_value]. lia.
Qed.

(** X6. [make_move] only subtracts and flips: after any sequence of
    moves, valid or not, the value is the initial value minus the sum of
    the moves, and the turn flag is the initial one when their number is
    even, its negation when it is odd. *)
Theorem X6_play_subtracts_sum s ms :
  current_value (play s ms) = current_value s - fold_right Z.add 0 ms /\
  p1_turn (play s ms) = xorb (p1_turn s) (Nat.odd (List.length ms)).
Proof.
  split; [apply play_value|].
  rewrite play_turn, <- Nat.negb_even.
  destruct (Nat.even (List.length ms)), (p1_turn s); reflexivity.
Qed.

Lemma sum_permutation ms ms' :
  Permutation ms ms' -> fold_right Z.add 0 ms = fold_right Z.add 0 ms'.
Proof.
  induction 1; cbn [fold_right]; lia.
Qed.

(** X7. The state reached does not depend on the order of the moves:
    two sequences that are permutations of each other lead to the same
    state. *)
Theorem X7_play_order_irrelevant s ms ms' :
  Permutation ms ms' -> play s ms = play s ms'.
Proof.
  intros HP.
  pose proof (play_value s ms) as V1. pose proof (play_value s ms') as V2.
  pose proof (play_turn s ms) as T1. pose proof (play_turn s ms') as T2.
  rewrite (Permutation_length HP) in T1. rewrite (sum_permutation _ _ HP) in V1.
  destruct (play s ms) as [b v], (play s ms') as [b' v'].
  cbn [p1_turn current_value] in *. congruence.
Qed.

Lemma X7_play_order_irrelevant_witness :
  Permutation [9; 1] [1; 9] /\
  play (mkState true 10) [9; 1] = play (mkState true 10) [1; 9].
Proof.
  split; [apply perm_swap|].
  apply (X7_play_order_irrelevant (mkState true 10) [9; 1] [1; 9]).
  apply perm_swap.
Defined.

(** * Further properties: the estimate *)

Lemma scan_moves_values rec s ms r :
  scan_moves rec s ms = Some (Ok r) -> r = WIN \/ r = DRAW.
Proof.
  induction ms as [|m ms IH]; cbn [scan_moves].
  - intros [= <-]. right; reflexivity.
  - destruct (rec (make_move s m)) as [[x|e]|]; try discriminate.
    destruct (x =? LOSE); [intros [= <-]; left; reflexivity | exact IH].
Qed.

Lemma scan_moves_win rec s ms :
  scan_moves rec s ms = Some (Ok WIN) ->
  exists m, In m ms /\ rec (make_move s m) = Some (Ok LOSE).
Proof.
  induction ms as [|m ms IH]; cbn [scan_moves].
  - intros [= ].
  - destruct (rec (make_move s m)) as [[x|e]|] eqn:E; try discriminate.
    destruct (Z.eqb_spec x LOSE) as [->|Hx].
    + intros _. exists m. split; [left; reflexivity | exact E].
    + intros H. destruct (IH H) as (m' & Hin & Hm'). exists m'. split; [right|]; assumption.
Qed.

Lemma rough_outcome_lose_iff s r :
  rough_outcome s = Some (Ok r) -> (r = LOSE <-> current_value s = 0).
Proof.
  rewrite rough_outcome_unfold.
  destruct (get_possible_moves s) as [ms|e] eqn:Hms; [|discriminate].
  destruct ms as [|m l].
  - intros [= <-]. apply no_move_iff_zero in Hms. tauto.
  - intros H. apply scan_moves_values in H.
    assert (current_value s <> 0).
    { intros H0. apply no_move_iff_zero in H0. congruence. }
    split; [|tauto]. intros ->. destruct H; discriminate.
Qed.

(** X8. An estimate that [rough_outcome] returns is one of LOSE, WIN and
    DRAW, hence within [LOSE, WIN] as the base class documents; and it is
    LOSE exactly on the state with value 0: a state that still has a move
    is never reported lost. *)
Theorem X8_rough_outcome_values s r :
  rough_outcome s = Some (Ok r) ->
  (r = LOSE \/ r = WIN \/ r = DRAW) /\
  LOSE <= r <= WIN /\
  (r = LOSE <-> current_value s = 0).
Proof.
  intros H. pose proof (rough_outcome_lose_iff s r H) as Hl.
  assert (Hv : r = LOSE \/ r = WIN \/ r = DRAW).
  { revert H. rewrite rough_outcome_unfold.
    destruct (get_possible_moves s) as [ms|e]; [|discriminate].
    destruct ms as [|m l]; [intros [= <-]; auto|].
    intros H. apply scan_moves_values in H. tauto. }
  split; [exact Hv|]. split; [|exact Hl].
  unfold LOSE, WIN, DRAW in *. lia.
Qed.

Lemma X8_rough_outcome_values_witness :
  rough_outcome (mkState true 7) = Some (Ok DRAW) /\
  LOSE <= DRAW <= WIN.
Proof.
  split; [reflexivity|].
  apply (X8_rough_outcome_values (mkState true 7) DRAW). reflexivity.
Defined.

(** X9. WIN is reported only when a move ends the game at once: some
    move accepted by [is_valid_move] is the whole value, so the value is a
    perfect square and the successor has value 0 and no move. *)
Theorem X9_win_has_finishing_move s :
  rough_outcome s = Some (Ok WIN) ->
  exists m, is_valid_move s m = Ok true /\
            m = current_value s /\
            (exists k, 1 <= k /\ m = k * k) /\
            get_possible_moves (make_move s m) = Ok [].
Proof.
  rewrite rough_outcome_unfold.
  destruct (get_possible_moves s) as [ms|e] eqn:Hms; [|discriminate].
  destruct ms as [|m0 l] eqn:El; [discriminate|]. rewrite <- El in *. clear El.
  intros H. apply scan_moves_win in H. destruct H as (m & Hin & Hl).
  pose proof (proj1 (rough_outcome_lose_iff _ _ Hl) eq_refl) as H0.
  cbn [make_move current_value] in H0.
  exists m. split; [apply is_valid_move_In; exists ms; auto|].
  split; [lia|]. split.
  - apply get_possible_moves_inv in Hms. destruct Hms as (k & _ & ->).
    apply squares_In in Hin. destruct Hin as (i & Hi & ->). exists i. split; [lia|reflexivity].
  - apply no_move_iff_zero. cbn [make_move current_value]. exact H0.
Qed.

Lemma X9_win_has_finishing_move_witness :
  rough_outcome (mkState false 9) = Some (Ok WIN) /\
  exists m, is_valid_move (mkState false 9) m = Ok true /\ m = 9.
Proof.
  split; [reflexivity|].
  destruct (X9_win_has_finishing_move (mkState false 9)) as (m & H1 & H2 & _).
  - reflexivity.
  - exists m. split; assumption.
Defined.

Lemma sqrt_square_iff v :
  1 <= v -> (Z.sqrt v * Z.sqrt v =? v) = true <-> exists k, 1 <= k /\ v = k * k.
Proof.
  intros Hv. rewrite Z.eqb_eq. split.
  - intros H. exists (Z.sqrt v). split; [|lia].
    pose proof (Z.sqrt_nonneg v). nia.
  - intros (k & Hk & ->). rewrite Z.sqrt_square by lia. reflexivity.
Qed.

(** X10. Below [2^52] the estimate has a closed form: WIN exactly on the
    positive perfect squares, DRAW exactly on the positive values that
    are not perfect squares, LOSE at 0. *)
Theorem X10_rough_outcome_closed_form s :
  0 <= current_value s < 2 ^ 52 ->
  (rough_outcome s = Some (Ok LOSE) <-> current_value s = 0) /\
  (rough_outcome s = Some (Ok WIN) <->
   exists k, 1 <= k /\ current_value s = k * k) /\
  (rough_outcome s = Some (Ok DRAW) <->
   1 <= current_value s /\ ~ exists k, 1 <= k /\ current_value s = k * k).
Proof.
  intros Hv. rewrite (rough_outcome_closed_form s Hv).
  destruct (Z.eqb_spec (current_value s) 0) as [H0|H0].
  - split; [tauto|]. split.
    + split; [discriminate|]. intros (k & Hk & E). nia.
    + split; [discriminate|]. lia.
  - pose proof (sqrt_square_iff (current_value s) ltac:(lia)) as Hsq.
    destruct (Z.sqrt (current_value s) * Z.sqrt (current_value s) =? current_value s).
    + split; [split; [discriminate|tauto]|]. split.
      * split; [intros _; apply Hsq; reflexivity | reflexivity].
      * split; [discriminate|]. intros [_ Hn]. exfalso. apply Hn, Hsq. reflexivity.
    + split; [split; [discriminate|tauto]|]. split.
      * split; [discriminate|]. intros H. apply Hsq in H. discriminate H.
      * split; [|reflexivity]. intros _. split; [lia|].
        intros H. apply Hsq in H. discriminate H.
Qed.

Lemma X10_rough_outcome_closed_form_witness :
  0 <= current_value (mkState true 16) < 2 ^ 52 /\
  rough_outcome (mkState true 16) = Some (Ok WIN).
Proof.
  split; [vm_compute; split; [discriminate|reflexivity]|].
  apply (X10_rough_outcome_closed_form (mkState true 16)).
  - vm_compute; split; [discriminate|reflexivity].
  - exists 4. split; [lia|reflexivity].
Defined.

Lemma scan_moves_turn rec1 rec2 b b' v ms :
  (forall m, In m ms ->
     rec1 (make_move (mkState b v) m) = rec2 (make_move (mkState b' v) m)) ->
  scan_moves rec1 (mkState b v) ms = scan_moves rec2 (mkState b' v) ms.
Proof.
  induction ms as [|m ms IH]; intros H; cbn [scan_moves]; [reflexivity|].
  rewrite (H m (or_introl eq_refl)).
  rewrite IH by (intros m' Hm'; apply H; right; assumption). reflexivity.
Qed.

Lemma rough_outcome_fuel_turn fuel :
  forall b b' v,
    rough_outcome_fuel fuel (mkState b v) = rough_outcome_fuel fuel (mkState b' v).
Proof.
  induction fuel as [|fuel IH]; intros b b' v; [reflexivity|].
  cbn [rough_outcome_fuel].
  change (get_possible_moves (mkState b' v)) with (get_possible_moves (mkState b v)).
  destruct (get_possible_moves (mkState b v)) as [ms|e]; [|reflexivity].
  destruct ms as [|m l]; [reflexivity|].
  apply scan_moves_turn. intros m' _. cbn [make_move p1_turn current_value]. apply IH.
Qed.

(** X11. Neither the moves nor the estimate depend on whose turn it is:
    two states with the same [current_value] have the same list of moves
    and the same [rough_outcome]. *)
Theorem X11_turn_is_irrelevant s1 s2 :
  current_value s1 = current_value s2 ->
  get_possible_moves s1 = get_possible_moves s2 /\
  rough_outcome s1 = rough_outcome s2.
Proof.
  destruct s1 as [b v], s2 as [b' v']. cbn [current_value]. intros <-.
  split; [reflexivity|]. apply rough_outcome_fuel_turn.
Qed.

Lemma X11_turn_is_irrelevant_witness :
  current_value (mkState true 12) = current_value (mkState false 12) /\
  rough_outcome (mkState true 12) = rough_outcome (mkState false 12).
Proof.
  split; [reflexivity|].
  apply (X11_turn_is_irrelevant (mkState true 12) (mkState false 12)). reflexivity.
Defined.

(** * Further properties: the display string *)

Lemma append_inv_length (a b c d : string) :
  (a ++ b)%string = (c ++ d)%string ->
  String.length b = String.length d ->
  a = c /\ b = d.
Proof.
  revert c. induction a as [|x a IH]; intros [|y c] H Hl; cbn [String.append] in H.
  - auto.
  - exfalso. apply (f_equal String.length) in H. cbn [String.length] in H.
    rewrite length_append in H. lia.
  - exfalso. apply (f_equal String.length) in H. cbn [String.length] in H.
    rewrite length_append in H. lia.
  - injection H as -> H. destruct (IH c H Hl) as [-> ->]. auto.
Qed.

(** X12. [__str__] tells states apart: two states have the same display
    string exactly when they have the same value and the same player to
    move. *)
Theorem X12_str_determines_state s1 s2 :
  __str__ s1 = __str__ s2 <->
  p1_turn s1 = p1_turn s2 /\ current_value s1 = current_value s2.
Proof.
  split.
  - unfold __str__. intros H. apply append_inv_head in H.
    apply append_inv_length in H.
    + destruct H as [Hv Hn]. apply py_str_int_inj in Hv.
      apply append_inv_head in Hn. split; [|exact Hv].
      unfold get_current_player_name in Hn.
      destruct (p1_turn s1), (p1_turn s2); try reflexivity; discriminate Hn.
    + unfold get_current_player_name.
      destruct (p1_turn s1), (p1_turn s2); reflexivity.
  - intros [Hb Hv]. unfold __str__, get_current_player_name. rewrite Hb, Hv. reflexivity.
Qed.

(** * Further properties: the console driver *)




Lemma driver_announced inputs :
  forall s out st o,
    game_loop s inputs out = Announced st o ->
    get_possible_moves st = Ok [] /\ exists o', o = (o' ++ [announce st])%list.
Proof.
  induction inputs as [|move rest IH]; intros s out st o; cbn [game_loop];
    destruct (get_possible_moves s) as [[|m0 l]|e] eqn:Hms;
    try discriminate;
    try (intros [= <- <-]; split; [assumption | eexists; reflexivity]).
  destruct (is_valid_move s move) as [[|]|e] eqn:Hv; try discriminate; apply IH.
Qed.

Lemma announce_names_other_player s :
  announce s = if p1_turn s then "Player 2 wins!"%string else "Player 1 wins!"%string.
Proof.
  unfold announce, get_current_player_name. destruct (p1_turn s); reflexivity.
Qed.

(** X14. When the driver announces a winner the game is over: the last
    state has value 0, and the announcement is the last line written and
    names the player who is not to move, the one who made the last
    move. *)
Theorem X14_driver_announcement s inputs out st o :
  game_loop s inputs out = Announced st o ->
  current_value st = 0 /\
  last o ""%string
  = (if p1_turn st then "Player 2 wins!" else "Player 1 wins!")%string.
Proof.
  intros H. destruct (driver_announced _ _ _ _ _ H) as [Hms [o' ->]].
  split; [apply no_move_iff_zero; assumption|].
  rewrite last_last. apply announce_names_other_player.
Qed.

Lemma X14_driver_announcement_witness :
  exists o, game_loop (mkState true 10) [9; 1] [] = Announced (mkState true 0) o /\
            last o ""%string = "Player 2 wins!"%string.
Proof.
  eexists. split; [reflexivity|].
  apply (X14_driver_announcement (mkState true 10) [9; 1] [] (mkState true 0)).
  reflexivity.
Defined.

(** X15. Started on a value below [2^52], the driver never ends on an
    exception of the state's methods, whatever integers are typed: it
    either announces a winner or stops waiting for input, and the value it
    holds is between 0 and the initial value. *)
Theorem X15_driver_never_crashes s inputs out :
  0 <= current_value s < 2 ^ 52 ->
  exists st o,
    (game_loop s inputs out = Announced st o \/
     game_loop s inputs out = EndOfInput st o) /\
    0 <= current_value st <= current_value s.
Proof.
  revert s out. induction inputs as [|move rest IH]; intros s out Hv; cbn [game_loop];
    rewrite (get_possible_moves_exact s Hv);
    destruct (map (fun i => i * i) (py_range 1 (Z.sqrt (current_value s) + 1)))
      as [|m0 l] eqn:Hms;
    try (eexists _, _; split; [left; reflexivity | lia]);
    try (eexists _, _; split; [right; reflexivity | lia]).
  destruct (is_valid_move_returns s move Hv) as (b & Hb).
  rewrite Hb. destruct b.
  - pose proof (valid_move_range s move Hv Hb) as Hr.
    edestruct (IH (make_move s move)) as (st & o & Ho & Hst);
      [cbn [make_move current_value]; lia|].
    exists st, o. split; [exact Ho|].
    cbn [make_move current_value] in Hst. lia.
  - edestruct (IH s) as (st & o & Ho & Hst); [exact Hv|].
    exists st, o. split; [exact Ho | exact Hst].
Qed.

Lemma X15_driver_never_crashes_witness :
  0 <= current_value (mkState true 10) < 2 ^ 52 /\
  exists st o, main [5; -3; 4] = Announced st o \/ main [5; -3; 4] = EndOfInput st o.
Proof.
  split; [vm_compute; split; [discriminate|reflexivity]|].
  destruct (X15_driver_never_crashes (mkState true 10) [5; -3; 4]
              ["Initial game state:"%string; __str__ (mkState true 10)])
    as (st & o & Ho & _).
  - vm_compute; split; [discriminate|reflexivity].
  - exists st, o. exact Ho.
Defined.





(** * Further properties: the domain of the moves *)

(** X18. For every value from 0 up to [2^52], excluded, the list of moves
    is exactly the ascending list of the positive squares not above the
    value, and their number is the integer square root of the value. *)
Theorem X18_moves_exact_below_2_52 s :
  0 <= current_value s < 2 ^ 52 ->
  exists ms, get_possible_moves s = Ok ms /\
             squares_upto (current_value s) ms /\
             Z.of_nat (List.length ms) = Z.sqrt (current_value s).
Proof.
  intros Hv. eexists. split; [apply get_possible_moves_exact; assumption|].
  split; [apply squares_upto_sqrt; lia|].
  unfold py_range. rewrite !length_map, length_seq.
  pose proof (Z.sqrt_nonneg (current_value s)). lia.
Qed.

Lemma X18_moves_exact_below_2_52_witness :
  0 <= current_value (mkState false 30) < 2 ^ 52 /\
  exists ms, get_possible_moves (mkState false 30) = Ok ms /\
             Z.of_nat (List.length ms) = 5.
Proof.
  split; [vm_compute; split; [discriminate|reflexivity]|].
  destruct (X18_moves_exact_below_2_52 (mkState false 30)) as (ms & Hms & _ & Hl).
  - vm_compute; split; [discriminate|reflexivity].
  - exists ms. split; [exact Hms|]. rewrite Hl. reflexivity.
Defined.

(** X19. The exceptions of [get_possible_moves] are decided by the value
    alone: [OverflowError] exactly when its magnitude reaches
    [2^1024 - 2^970], [TypeError] exactly on the other negative values,
    and never [ValueError]. *)
Theorem X19_moves_exceptions s :
  (get_possible_moves s = Raise OverflowError <->
   2 ^ 1024 - 2 ^ 970 <= Z.abs (current_value s)) /\
  (get_possible_moves s = Raise TypeError <->
   - (2 ^ 1024 - 2 ^ 970) < current_value s < 0) /\
  get_possible_moves s <> Raise ValueError.
Proof.
  assert (T : 0 < 2 ^ 1024 - 2 ^ 970) by reflexivity.
  destruct (Z_lt_le_dec (current_value s) 0) as [Hneg|Hge].
  - rewrite (get_possible_moves_negative_exn s Hneg).
    destruct (Z.leb_spec (current_value s) (- (2 ^ 1024 - 2 ^ 970))).
    + split; [split; [lia|reflexivity]|]. split; [split; [discriminate|lia]|discriminate].
    + split; [split; [discriminate|lia]|]. split; [split; [lia|reflexivity]|discriminate].
  - destruct (Z_lt_le_dec (current_value s) (2 ^ 1024 - 2 ^ 970)) as [Hlt|Hbig].
    + destruct (proj2 (get_possible_moves_domain s) (conj Hge Hlt)) as [ms ->].
      split; [split; [discriminate|lia]|]. split; [split; [discriminate|lia]|discriminate].
    + rewrite (get_possible_moves_overflow s Hbig).
      split; [split; [lia|reflexivity]|]. split; [split; [discriminate|lia]|discriminate].
Qed.
